(** * QueueManager: the in-memory job tracker of bulk-ai-image

    A shallow embedding of [lib/queue-manager.js] (class [QueueManager]) and
    the properties of its bookkeeping.

    Modelling choices, all read off the source:
    - [this.jobs] (a JS [Map]) is a [gmap string Job.t], [this.activeJobs]
      (a JS [Set]) a [gset string], [this.queue] (a JS array) a [list string];
    - every method is a computation in a small state monad over the tracker,
      so that "the call changes nothing" is a statement about the method;
    - [this.emit(...)] appends to a log of emitted notifications
      ([emitted]); no listener is modelled. [jobUpdate] carries the job as
      it is when the notification is emitted;
    - [new Date()] is the explicit argument [now] of the two methods that
      read the clock;
    - numbers are [Z]: counters are decremented without a floor in the
      source; an image index is any integer, negative ones included;
    - statuses are JS strings, compared with [===] ([String.eqb]);
    - the optional fields of [data] hold a string or are absent;
    - [getAllJobs], which lists the map in insertion order, is left out:
      no property below reads it. *)

From Stdlib Require Import ZArith.
From stdpp Require Import gmap strings list fin_maps.

Local Open Scope string_scope.
Local Open Scope Z_scope.

(** ** Data model *)

(** One entry of [job.images]. [analysis] is absent until an update
    provides one; [outputPath] and [error] start as [null]. *)
Module Image.
Record t := mk {
  path : string;
  status : string;
  outputPath : option string;
  error : option string;
  analysis : option string
}.

Definition set_status (v : string) (i : t) : t :=
  mk (path i) v (outputPath i) (error i) (analysis i).
Definition set_outputPath (v : option string) (i : t) : t :=
  mk (path i) (status i) v (error i) (analysis i).
Definition set_error (v : option string) (i : t) : t :=
  mk (path i) (status i) (outputPath i) v (analysis i).
Definition set_analysis (v : option string) (i : t) : t :=
  mk (path i) (status i) (outputPath i) (error i) v.
End Image.

(** [job.progress]. *)
Module Progress.
Record t := mk {
  total : Z;
  completed : Z;
  failed : Z;
  pending : Z
}.
End Progress.

(** The optional fourth argument of [updateImageStatus]. *)
Module Data.
Record t := mk {
  outputPath : option string;
  error : option string;
  analysis : option string
}.

(** The default [data = {}]. *)
Definition empty : t := mk None None None.
End Data.

Module Job.
Record t := mk {
  jobId : string;
  status : string;
  images : list Image.t;
  createdAt : Z;
  completedAt : option Z;
  progress : Progress.t
}.
End Job.

(** The three notifications of the tracker. *)
Inductive Event :=
| jobStart (jobId : string)
| jobComplete (jobId : string)
| jobUpdate (jobId : string) (job : Job.t).

(** The fields of a [QueueManager] instance, with the log of what it has
    emitted. *)
Record QueueManager := mkQueueManager {
  maxConcurrent : Z;
  jobs : gmap string Job.t;
  activeJobs : gset string;
  queue : list string;
  emitted : list Event
}.

(** [getStats]' result. *)
Module Stats.
Record t := mk {
  totalJobs : Z;
  activeJobs : Z;
  queuedJobs : Z;
  maxConcurrent : Z
}.
End Stats.

(** ** The state monad of the methods *)

Definition M (A : Type) : Type := QueueManager → A * QueueManager.

Definition ret {A} (a : A) : M A := λ q, (a, q).
Definition bind {A B} (m : M A) (k : A → M B) : M B :=
  λ q, let '(a, q') := m q in k a q'.
Definition get : M QueueManager := λ q, (q, q).
Definition modify (f : QueueManager → QueueManager) : M unit := λ q, (tt, f q).

Notation "x <- m ;; k" := (bind m (λ x, k))
  (at level 100, m at next level, right associativity).
Notation "m ;; k" := (bind m (λ _, k))
  (at level 100, right associativity).

(** The state a call leaves, and the value it returns. *)
Definition exec {A} (m : M A) (q : QueueManager) : QueueManager := (m q).2.
Definition eval {A} (m : M A) (q : QueueManager) : A := (m q).1.

(** Field updates of the instance. *)
Definition set_jobs (f : gmap string Job.t → gmap string Job.t) : M unit :=
  modify (λ q, mkQueueManager (maxConcurrent q) (f (jobs q)) (activeJobs q)
                              (queue q) (emitted q)).
Definition set_activeJobs (f : gset string → gset string) : M unit :=
  modify (λ q, mkQueueManager (maxConcurrent q) (jobs q) (f (activeJobs q))
                              (queue q) (emitted q)).
Definition set_queue (f : list string → list string) : M unit :=
  modify (λ q, mkQueueManager (maxConcurrent q) (jobs q) (activeJobs q)
                              (f (queue q)) (emitted q)).

(** [this.emit(...)]. *)
Definition emit (e : Event) : M unit :=
  modify (λ q, mkQueueManager (maxConcurrent q) (jobs q) (activeJobs q)
                              (queue q) (emitted q ++ [e])).

(** ** JavaScript primitives used by the class *)

(** Truthiness of an optional string: absent and the empty string are
    falsy. *)
Definition truthy (o : option string) : bool :=
  match o with
  | Some s => negb (String.eqb s "")
  | None => false
  end.

(** [arr[i]] for an integer [i]: [undefined] outside [0 .. length-1]. *)
Definition at_index {A} (arr : list A) (i : Z) : option A :=
  if decide (0 ≤ i) then arr !! Z.to_nat i else None.

(** [const k = arr.indexOf(x); if (k > -1) arr.splice(k, 1)]: drops the
    first occurrence of [x], if there is one. *)
Fixpoint splice_first (x : string) (arr : list string) : list string :=
  match arr with
  | [] => []
  | y :: rest => if String.eqb y x then rest else y :: splice_first x rest
  end.

(** ** The methods *)

(** [new QueueManager(maxConcurrent)]. *)
Definition new (maxConcurrent : Z) : QueueManager :=
  mkQueueManager maxConcurrent ∅ ∅ [] [].

Definition new_image (path : string) : Image.t :=
  Image.mk path "pending" None None None.

Definition createJob (now : Z) (jobId : string) (imagePaths : list string)
  : M Job.t :=
  let job :=
    Job.mk jobId "pending" (new_image <$> imagePaths) now None
      (Progress.mk (Z.of_nat (length imagePaths)) 0 0
                   (Z.of_nat (length imagePaths))) in
  set_jobs (insert jobId job) ;;
  set_queue (λ arr, (arr ++ [jobId])%list) ;;
  ret job.

Definition getJob (jobId : string) : M (option Job.t) :=
  q <- get ;;
  ret (jobs q !! jobId).

(** The predicate of [job.images.every(...)]. *)
Definition terminal (img : Image.t) : bool :=
  String.eqb (Image.status img) "completed"
  || String.eqb (Image.status img) "failed".

(** The image after the status and data assignments. *)
Definition update_image (status : string) (data : Data.t) (image : Image.t)
  : Image.t :=
  let image := Image.set_status status image in
  let image := if truthy (Data.outputPath data)
               then Image.set_outputPath (Data.outputPath data) image
               else image in
  let image := if truthy (Data.error data)
               then Image.set_error (Data.error data) image
               else image in
  if truthy (Data.analysis data)
  then Image.set_analysis (Data.analysis data) image
  else image.

(** The progress counters after one update. *)
Definition update_progress (oldStatus status : string) (p : Progress.t)
  : Progress.t :=
  let pending := if String.eqb oldStatus "pending"
                 then Progress.pending p - 1 else Progress.pending p in
  if String.eqb status "completed" then
    Progress.mk (Progress.total p) (Progress.completed p + 1)
                (Progress.failed p) pending
  else if String.eqb status "failed" then
    Progress.mk (Progress.total p) (Progress.completed p)
                (Progress.failed p + 1) pending
  else
    Progress.mk (Progress.total p) (Progress.completed p)
                (Progress.failed p) pending.

Definition updateImageStatus (now : Z) (jobId : string) (imageIndex : Z)
    (status : string) (data : Data.t) : M unit :=
  q <- get ;;
  match jobs q !! jobId with
  | None => ret tt
  | Some job =>
    match at_index (Job.images job) imageIndex with
    | None => ret tt
    | Some image =>
      let oldStatus := Image.status image in
      let images := <[Z.to_nat imageIndex := update_image status data image]>
                      (Job.images job) in
      let progress := update_progress oldStatus status (Job.progress job) in
      let allDone := forallb terminal images in
      let job :=
        if allDone
        then Job.mk (Job.jobId job) "completed" images (Job.createdAt job)
                    (Some now) progress
        else Job.mk (Job.jobId job) (Job.status job) images
                    (Job.createdAt job) (Job.completedAt job) progress in
      set_jobs (insert jobId job) ;;
      (if allDone
       then set_activeJobs (λ s, s ∖ {[jobId]}) ;; emit (jobComplete jobId)
       else ret tt) ;;
      emit (jobUpdate jobId job)
    end
  end.

Definition startJob (jobId : string) : M unit :=
  q <- get ;;
  match jobs q !! jobId with
  | None => ret tt
  | Some job =>
    let job := Job.mk (Job.jobId job) "processing" (Job.images job)
                      (Job.createdAt job) (Job.completedAt job)
                      (Job.progress job) in
    set_jobs (insert jobId job) ;;
    set_activeJobs (λ s, {[jobId]} ∪ s) ;;
    set_queue (splice_first jobId) ;;
    emit (jobStart jobId)
  end.

Definition canStartNewJob : M bool :=
  q <- get ;;
  ret ((Z.of_nat (size (activeJobs q)) <? maxConcurrent q)
       && (0 <? Z.of_nat (length (queue q)))).

Definition getNextJob : M (option string) :=
  q <- get ;;
  match queue q with
  | [] => ret None
  | first :: _ => ret (Some first)
  end.

Definition removeJob (jobId : string) : M unit :=
  set_jobs (delete jobId) ;;
  set_activeJobs (λ s, s ∖ {[jobId]}) ;;
  set_queue (splice_first jobId).

Definition getStats : M Stats.t :=
  q <- get ;;
  ret (Stats.mk (Z.of_nat (size (jobs q))) (Z.of_nat (size (activeJobs q)))
                (Z.of_nat (length (queue q))) (maxConcurrent q)).

(** ** Sequences of calls *)

(** The four mutating methods, as the calls a client makes. *)
Inductive Call :=
| CreateJob (now : Z) (jobId : string) (imagePaths : list string)
| StartJob (jobId : string)
| UpdateImageStatus (now : Z) (jobId : string) (imageIndex : Z)
                    (status : string) (data : Data.t)
| RemoveJob (jobId : string).

Definition call (c : Call) (q : QueueManager) : QueueManager :=
  match c with
  | CreateJob now jobId imagePaths => exec (createJob now jobId imagePaths) q
  | StartJob jobId => exec (startJob jobId) q
  | UpdateImageStatus now jobId imageIndex status data =>
      exec (updateImageStatus now jobId imageIndex status data) q
  | RemoveJob jobId => exec (removeJob jobId) q
  end.

Definition run (cs : list Call) (q : QueueManager) : QueueManager :=
  foldl (λ q c, call c q) q cs.

(** * The server around the tracker

    [server.js] drives the tracker from its routes and from [processJob];
    the processors ([lib/gemini-processor.js],
    [lib/imagerouter-processor.js]) and [ZipGenerator]
    ([lib/zip-generator.js]) do the work on files. What these do to the
    outside world (HTTP calls to the providers, the file system, timers) is
    not modelled: an awaited call is given by how it ends, a [setTimeout]
    by its delay, and an archive by the list of files handed to
    [createZip]. [processJob] is modelled as it runs when no other request
    touches the tracker while it waits for a processor. *)

(** ** The processors *)

(** What [processImage] resolves to. *)
Module Result.
Record t := mk {
  success : bool;
  outputPath : option string;
  analysis : option string;
  error : option string;
  originalPath : option string
}.
End Result.

(** How an awaited call ends: with a result, or with a thrown error and
    its [message]. *)
Inductive Attempt :=
| Returns (result : Result.t)
| Throws (message : option string).

(** [{ success: false, error: lastError || 'Failed after multiple
    retries' }]. *)
Definition failed_after (lastError : option string) : Result.t :=
  Result.mk false None None
    (if truthy lastError then lastError
     else Some "Failed after multiple retries")
    None.

(** The loop of [processImageWithRetry], from [attempt] on, with
    [remaining] iterations to go. [processImage k] is how the call of
    [processImage] (or [generateImage]) of iteration [k] ends; [waits]
    collects the delays of the [setTimeout]s, in milliseconds. *)
Fixpoint retry_from (processImage : nat → Attempt) (maxRetries : Z)
    (remaining attempt : nat) (lastError : option string) (waits : list Z)
  : Result.t * list Z :=
  match remaining with
  | O => (failed_after lastError, waits)
  | S remaining =>
      match processImage attempt with
      | Returns result =>
          if Result.success result then (result, waits)
          else retry_from processImage maxRetries remaining (S attempt)
                          (Result.error result) waits
      | Throws message =>
          let waits :=
            if Z.of_nat attempt <? maxRetries
            then (waits ++ [2 ^ Z.of_nat attempt * 1000])%list
            else waits in
          retry_from processImage maxRetries remaining (S attempt)
                     message waits
      end
  end.

(** [for (let attempt = 0; attempt <= maxRetries; attempt++)]. *)
Definition processImageWithRetry (processImage : nat → Attempt)
    (maxRetries : Z) : Result.t * list Z :=
  retry_from processImage maxRetries (Z.to_nat (maxRetries + 1)) 0 None [].

(** The guard of the two constructors, as [processJob] reaches them: the
    message of the error thrown for a missing key, if one is thrown. *)
Definition new_processor (provider : string)
    (apiKey imageRouterApiKey : option string) : option string :=
  if String.eqb provider "imagerouter" then
    if truthy imageRouterApiKey then None
    else Some "ImageRouter API key is required"
  else
    if truthy apiKey then None
    else Some "Gemini API key is required".

(** ** processJob *)

(** [for (let i = from; ...; i++) body(i)], [count] times. *)
Fixpoint for_each (body : nat → M unit) (count : nat) (i : nat) : M unit :=
  match count with
  | O => ret tt
  | S count => body i ;; for_each body count (S i)
  end.

(** What [processJob] tells the tracker once the processor has answered
    for image [i]. *)
Definition report (now : Z) (jobId : string) (i : nat) (answer : Attempt)
  : M unit :=
  match answer with
  | Returns result =>
      if Result.success result then
        updateImageStatus now jobId (Z.of_nat i) "completed"
          (Data.mk (Result.outputPath result) None (Result.analysis result))
      else
        updateImageStatus now jobId (Z.of_nat i) "failed"
          (Data.mk None (Result.error result) None)
  | Throws message =>
      updateImageStatus now jobId (Z.of_nat i) "failed"
        (Data.mk None message None)
  end.

(** [processJob]. [creation] is the message of the error that creating the
    processor throws, if it throws; [answers i] is how
    [processImageWithRetry] ends for image [i]; [clock k] is the time of
    the [k]-th update. *)
Definition processJob (clock : nat → Z) (jobId : string)
    (creation : option string) (answers : nat → Attempt) : M unit :=
  job <- getJob jobId ;;
  match job with
  | None => ret tt
  | Some job =>
      startJob jobId ;;
      match creation with
      | None =>
          for_each
            (λ i, updateImageStatus (clock (2 * i)%nat) jobId (Z.of_nat i)
                    "processing" Data.empty ;;
                  report (clock (2 * i + 1)%nat) jobId i (answers i))
            (length (Job.images job)) 0
      | Some message =>
          for_each
            (λ i, updateImageStatus (clock i) jobId (Z.of_nat i) "failed"
                    (Data.mk None (Some ("Server error: " ++ message)) None))
            (length (Job.images job)) 0
      end
  end.

(** ** ZipGenerator and the routes *)

(** [job.images.filter(img => img.status === 'completed' &&
    img.outputPath).map(img => img.outputPath)]. *)
Definition processedImages (job : Job.t) : list (option string) :=
  Image.outputPath
    <$> List.filter (λ img, String.eqb (Image.status img) "completed"
                            && truthy (Image.outputPath img))
                    (Job.images job).

(** [createJobZip] up to its call of [createZip]: the message of the error
    it throws, or the files and the name of the archive (in the [temp]
    directory) that it hands to [createZip]. *)
Definition createJobZip (job : Job.t) (jobId : string)
  : string + list (option string) * string :=
  match processedImages job with
  | [] => inl "No processed images to zip"
  | files => inr (files, jobId ++ ".zip")
  end.

(** What a route answers. *)
Inductive Response :=
| json_error (status : Z) (error : string)
| json_job (job : Job.t)
| json_success
| sent_zip (files : list (option string)) (zip : string) (filename : string).


(** [GET /api/download/:jobId], when [createZip] succeeds. *)
Definition download_route (jobId : string) : M Response :=
  job <- getJob jobId ;;
  match job with
  | None => ret (json_error 404 "Job not found")
  | Some job =>
      if negb (String.eqb (Job.status job) "completed") then
        ret (json_error 400 "Job not yet completed")
      else
        match createJobZip job jobId with
        | inl message => ret (json_error 500 message)
        | inr (files, zip) =>
            ret (sent_zip files zip ("enhanced-images-" ++ jobId ++ ".zip"))
        end
  end.


(** The checks of [POST /api/upload] before it creates the job: the
    answer that rejects the request, if it is rejected. [files] is
    [req.files], the other arguments are the fields of [req.body]. *)
Definition upload_rejection (files : option (list string))
    (provider apiKey imageRouterApiKey : option string) : option Response :=
  match files with
  | None | Some [] => Some (json_error 400 "No files uploaded")
  | Some _ =>
      let provider := if truthy provider then default "" provider
                      else "gemini" in
      if String.eqb provider "imagerouter" then
        if negb (truthy imageRouterApiKey) then
          Some (json_error 400 "ImageRouter API key is required")
        else None
      else
        if negb (truthy apiKey) then
          Some (json_error 400 "Gemini API key is required")
        else if negb (String.prefix "AIza" (default "" apiKey)) then
          Some (json_error 400 "Invalid Gemini API key format")
        else None
  end.

(** * Vocabulary of the properties *)

(** ** What an update leaves *)

(** The record of the job after an update that found [image] at
    [imageIndex]. *)
Definition job_after_update (now : Z) (imageIndex : Z) (status : string)
    (data : Data.t) (job : Job.t) (image : Image.t) : Job.t :=
  let images := <[Z.to_nat imageIndex := update_image status data image]>
                  (Job.images job) in
  let allDone := forallb terminal images in
  Job.mk (Job.jobId job)
         (if allDone then "completed" else Job.status job)
         images
         (Job.createdAt job)
         (if allDone then Some now else Job.completedAt job)
         (update_progress (Image.status image) status (Job.progress job)).

(** Every image is completed or failed. *)
Definition all_terminal (images : list Image.t) : Prop :=
  ∀ img, img ∈ images →
    Image.status img = "completed" ∨ Image.status img = "failed".

(** If a job is registered under [jobId], all its images are terminal. *)
Definition settled (jobId : string) (q : QueueManager) : Prop :=
  ∀ job, jobs q !! jobId = Some job →
    forallb terminal (Job.images job) = true.

(** ** Counting *)

(** How often [jobComplete(jobId)] occurs among notifications. *)
Fixpoint count_jobComplete (jobId : string) (log : list Event) : nat :=
  match log with
  | [] => 0%nat
  | jobComplete j :: rest =>
      if String.eqb j jobId then S (count_jobComplete jobId rest)
      else count_jobComplete jobId rest
  | _ :: rest => count_jobComplete jobId rest
  end.

(** How many images have status [st]. *)
Fixpoint count_status (st : string) (images : list Image.t) : Z :=
  match images with
  | [] => 0
  | img :: rest =>
      (if String.eqb (Image.status img) st then 1 else 0)
      + count_status st rest
  end.

Definition known_status (img : Image.t) : Prop :=
  Image.status img = "pending" ∨ Image.status img = "processing"
  ∨ Image.status img = "completed" ∨ Image.status img = "failed".

(** The counters of a job say what its images are. *)
Definition counters_exact (job : Job.t) : Prop :=
  let p := Job.progress job in
  Progress.total p = Z.of_nat (length (Job.images job))
  ∧ Progress.pending p = count_status "pending" (Job.images job)
  ∧ Progress.completed p = count_status "completed" (Job.images job)
  ∧ Progress.failed p = count_status "failed" (Job.images job)
  ∧ Forall known_status (Job.images job).

Definition all_counters_exact (q : QueueManager) : Prop :=
  ∀ jobId job, jobs q !! jobId = Some job → counters_exact job.

(** ** Disciplines of the callers *)

(** The discipline of the processing loop ([processJob] in [server.js],
    as long as it does not reach its last [catch]): a status among
    processing, completed and failed, and never an update of an image that
    is already completed or failed. A call that finds no job or no image
    is within it. *)
Definition in_lifecycle (q : QueueManager) (c : Call) : bool :=
  match c with
  | UpdateImageStatus _ jobId imageIndex status _ =>
      (String.eqb status "processing" || String.eqb status "completed"
       || String.eqb status "failed")
      && match jobs q !! jobId with
         | None => true
         | Some job =>
             match at_index (Job.images job) imageIndex with
             | None => true
             | Some image => negb (terminal image)
             end
         end
  | _ => true
  end.

(** Every call of the sequence is within the discipline in the state it
    is made in. *)
Fixpoint lifecycle (cs : list Call) (q : QueueManager) : bool :=
  match cs with
  | [] => true
  | c :: rest => in_lifecycle q c && lifecycle rest (call c q)
  end.

(** The caller's side of [createJob]: the id is not that of a registered
    job. *)
Definition fresh_id (q : QueueManager) (c : Call) : bool :=
  match c with
  | CreateJob _ jobId _ =>
      match jobs q !! jobId with
      | None => true
      | Some _ => false
      end
  | _ => true
  end.

Fixpoint fresh_ids (cs : list Call) (q : QueueManager) : bool :=
  match cs with
  | [] => true
  | c :: rest => fresh_id q c && fresh_ids rest (call c q)
  end.

(** The least that [createJob] needs of its caller: the id is not waiting
    in the pending queue. An id that is not registered, and so every id
    that is used once only, is such an id in every state that calls of this
    kind reach. *)
Definition unqueued_id (q : QueueManager) (c : Call) : bool :=
  match c with
  | CreateJob _ jobId _ => negb (existsb (String.eqb jobId) (queue q))
  | _ => true
  end.

Fixpoint unqueued_ids (cs : list Call) (q : QueueManager) : bool :=
  match cs with
  | [] => true
  | c :: rest => unqueued_id q c && unqueued_ids rest (call c q)
  end.

(** The call registers a job under [jobId]. *)
Definition creates (jobId : string) (c : Call) : bool :=
  match c with
  | CreateJob _ j _ => String.eqb j jobId
  | _ => false
  end.

(** The pending queue holds no id twice, and the queue and the active set
    hold ids of registered jobs only. *)
Definition indexes_consistent (q : QueueManager) : Prop :=
  NoDup (queue q)
  ∧ (∀ jobId, jobId ∈ queue q → is_Some (jobs q !! jobId))
  ∧ (∀ jobId, jobId ∈ activeJobs q → is_Some (jobs q !! jobId)).

(** The call does not report an image as pending. *)
Definition reports_progress (c : Call) : bool :=
  match c with
  | UpdateImageStatus _ _ _ status _ => negb (String.eqb status "pending")
  | _ => true
  end.

(** No id of the pending queue is in the active set. *)
Definition queued_not_active (q : QueueManager) : Prop :=
  ∀ jobId, jobId ∈ queue q → jobId ∉ activeJobs q.

(** What [startJob] makes of a job record. *)
Definition started (job : Job.t) : Job.t :=
  Job.mk (Job.jobId job) "processing" (Job.images job) (Job.createdAt job)
         (Job.completedAt job) (Job.progress job).

(** The job has images and all of them are completed or failed. *)
Definition resolved (job : Job.t) : bool :=
  match Job.images job with
  | [] => false
  | _ => forallb terminal (Job.images job)
  end.

(** If the job is registered, [jobComplete] has been emitted for it once
    more than [before] when it is resolved, and as often as [before]
    otherwise. *)
Definition completions_match (jobId : string) (before : nat)
    (q : QueueManager) : Prop :=
  ∀ job, jobs q !! jobId = Some job →
    count_jobComplete jobId (emitted q)
    = (before + (if resolved job then 1 else 0))%nat.

(** ** Outcomes of the processors *)

(** The call ended with a successful result. *)
Definition succeeded (a : Attempt) : bool :=
  match a with
  | Returns result => Result.success result
  | Throws _ => false
  end.

(** What an attempt that did not succeed leaves in [lastError]. *)
Definition attempt_error (a : Attempt) : option string :=
  match a with
  | Returns result => Result.error result
  | Throws message => message
  end.

(** [lastError] after [n] attempts without success. *)
Definition last_error (processImage : nat → Attempt) (n : nat)
  : option string :=
  match n with
  | O => None
  | S k => attempt_error (processImage k)
  end.

(** The status and the data that [report] passes to the tracker. *)
Definition reported (a : Attempt) : string * Data.t :=
  match a with
  | Returns result =>
      if Result.success result
      then ("completed",
            Data.mk (Result.outputPath result) None (Result.analysis result))
      else ("failed", Data.mk None (Result.error result) None)
  | Throws message => ("failed", Data.mk None message None)
  end.

(** Image [i] of a fresh job once [processJob] is through with it. *)
Definition processed_image (creation : option string)
    (answers : nat → Attempt) (i : nat) (path : string) : Image.t :=
  match creation with
  | None =>
      update_image (reported (answers i)).1 (reported (answers i)).2
        (update_image "processing" Data.empty (new_image path))
  | Some message =>
      update_image "failed"
        (Data.mk None (Some ("Server error: " ++ message)) None)
        (new_image path)
  end.

(** The file that an answer of the processor adds to the archive of the
    job, if it adds one. *)
Definition output_of (a : Attempt) : option string :=
  match a with
  | Returns result =>
      if Result.success result && truthy (Result.outputPath result)
      then Result.outputPath result
      else None
  | Throws _ => None
  end.

(** [req.body.provider || 'gemini']. *)
Definition chosen_provider (provider : option string) : string :=
  if truthy provider then default "" provider else "gemini".

(** The call ended with a thrown error. *)
Definition throws (a : Attempt) : bool :=
  match a with
  | Throws _ => true
  | Returns _ => false
  end.

(** None of the attempts [from .. upto - 1] succeeded. *)
Definition none_succeeded (processImage : nat → Attempt) (from upto : nat)
  : bool :=
  forallb (λ k, negb (succeeded (processImage k))) (seq from (upto - from)).

(** Attempt [j] is reached from attempt [from] on, and throws. *)
Definition reached_and_throws (processImage : nat → Attempt) (from j : nat)
  : bool :=
  throws (processImage j) && none_succeeded processImage from j.

(** The delay after attempt [j], in milliseconds. *)
Definition backoff (j : nat) : Z := 2 ^ Z.of_nat j * 1000.

(** The sum of the delays. *)
Definition total_wait (waits : list Z) : Z := foldr Z.add 0 waits.

(** The tracker after [processJob] has dealt with one image of [job]: the
    images are [images'], the image dealt with has gone from pending to
    [status'], and [extra] has been emitted. *)
Definition after_image (jobId : string) (now : Z) (extra : list Event)
    (images' : list Image.t) (status' : string) (job : Job.t)
    (q : QueueManager) : QueueManager :=
  let allDone := forallb terminal images' in
  mkQueueManager (maxConcurrent q)
    (<[jobId := Job.mk (Job.jobId job)
                  (if allDone then "completed" else Job.status job)
                  images' (Job.createdAt job)
                  (if allDone then Some now else Job.completedAt job)
                  (update_progress "pending" status' (Job.progress job))]>
       (jobs q))
    (if allDone then activeJobs q ∖ {[jobId]} else activeJobs q)
    (queue q) (emitted q ++ extra).

(** The counters after each of [images] has gone from pending to the
    status it has. *)
Definition tally (images : list Image.t) (p : Progress.t) : Progress.t :=
  foldl (λ p img, update_progress "pending" (Image.status img) p) p images.

(** ** Sample trackers *)

(** A first attempt that throws, a second one that succeeds. *)
Definition second_attempt_succeeds (k : nat) : Attempt :=
  match k with
  | 0%nat => Throws (Some "socket hang up")
  | 1%nat => Returns (Result.mk true (Some "outputs/enhanced_a.png")
                                (Some "done") None (Some "a.png"))
  | _ => Throws None
  end.

(** A first attempt that reports an error, then attempts that throw
    without a message. *)
Definition no_attempt_succeeds (k : nat) : Attempt :=
  match k with
  | 0%nat => Returns (Result.mk false None None (Some "quota exceeded") None)
  | _ => Throws None
  end.

(** One job of two images, just created. *)
Definition two_images : QueueManager :=
  exec (createJob 0 "job-a" ["a.png"; "b.png"]) (new 3).

(** One job of one image, created, started and completed at time 1. *)
Definition completed_once : QueueManager :=
  run [CreateJob 0 "job-a" ["a.png"]; StartJob "job-a";
       UpdateImageStatus 1 "job-a" 0 "completed" Data.empty] (new 3).

(** * Properties *)

(** Unfolds a method call down to the record it builds. *)
Ltac run_method :=
  unfold exec, eval, createJob, getJob, updateImageStatus, startJob,
    canStartNewJob, getNextJob, removeJob, getStats, set_jobs,
    set_activeJobs, set_queue, emit, bind, get, modify, ret in *;
  simpl in *.

(** ** Array helpers *)

Lemma at_index_Some {A} (arr : list A) i x :
  at_index arr i = Some x ↔ 0 ≤ i ∧ arr !! Z.to_nat i = Some x.
Proof.
  unfold at_index. case_decide; [tauto|].
  split; [discriminate|]. intros [? _]. lia.
Qed.

Lemma at_index_None {A} (arr : list A) i :
  at_index arr i = None ↔ i < 0 ∨ Z.of_nat (length arr) ≤ i.
Proof.
  unfold at_index. case_decide.
  - rewrite lookup_ge_None. lia.
  - split; [lia | done].
Qed.

Lemma splice_first_notin x arr : x ∉ arr → splice_first x arr = arr.
Proof.
  induction arr as [|y rest IH]; [done|].
  rewrite not_elem_of_cons. intros [Hne Hrest]. simpl.
  destruct (String.eqb_spec y x) as [->|_]; [done|].
  by rewrite IH.
Qed.

Lemma splice_first_NoDup x arr : NoDup arr → x ∉ splice_first x arr.
Proof.
  induction 1 as [|y rest Hy Hnd IH]; simpl.
  - apply not_elem_of_nil.
  - destruct (String.eqb_spec y x) as [->|Hne]; [done|].
    rewrite not_elem_of_cons. split; [congruence | done].
Qed.

Lemma splice_first_sub x y arr : y ∈ splice_first x arr → y ∈ arr.
Proof.
  induction arr as [|z rest IH]; simpl; [done|].
  destruct (String.eqb_spec z x) as [->|Hne].
  - apply list_elem_of_further.
  - rewrite !elem_of_cons. intros [->|?]; [by left | right; auto].
Qed.

Lemma splice_first_preserves_NoDup x arr :
  NoDup arr → NoDup (splice_first x arr).
Proof.
  induction 1 as [|y rest Hy Hnd IH]; simpl; [constructor|].
  destruct (String.eqb_spec y x) as [->|Hne]; [done|].
  constructor; [|done]. intros Hin. by apply Hy, splice_first_sub with x.
Qed.

(** ** createJob *)

(** C5. [createJob(jobId, imagePaths)] returns and registers a job with
    status pending, one image per path in the order of the paths, each
    pending with no output, error or analysis, [completedAt] unset and
    [progress = {total: N, completed: 0, failed: 0, pending: N}], and pushes
    the id at the tail of the pending queue; the other jobs, the active set
    and the notifications are left alone. *)
Theorem createJob_spec (now : Z) (jobId : string) (imagePaths : list string)
    (q : QueueManager) :
  let job := eval (createJob now jobId imagePaths) q in
  let q' := exec (createJob now jobId imagePaths) q in
  let N := Z.of_nat (length imagePaths) in
  jobs q' !! jobId = Some job
  ∧ Job.jobId job = jobId
  ∧ Job.status job = "pending"
  ∧ length (Job.images job) = length imagePaths
  ∧ (∀ (k : nat) p, imagePaths !! k = Some p →
       Job.images job !! k = Some (Image.mk p "pending" None None None))
  ∧ Job.completedAt job = None
  ∧ Job.progress job = Progress.mk N 0 0 N
  ∧ queue q' = (queue q ++ [jobId])%list
  ∧ (∀ other, other ≠ jobId → jobs q' !! other = jobs q !! other)
  ∧ activeJobs q' = activeJobs q
  ∧ emitted q' = emitted q
  ∧ maxConcurrent q' = maxConcurrent q.
Proof.
  run_method. repeat split.
  - apply lookup_insert_eq.
  - apply length_fmap.
  - intros k p Hk. by rewrite list_lookup_fmap, Hk.
  - intros other Hne. by apply lookup_insert_ne.
Qed.

(** ** The queries *)

(** C6. [canStartNewJob()] is true exactly when fewer than [maxConcurrent]
    jobs are active and the pending queue is not empty, and it leaves the
    tracker as it was. *)
Theorem canStartNewJob_spec (q : QueueManager) :
  (eval canStartNewJob q = true ↔
     Z.of_nat (size (activeJobs q)) < maxConcurrent q ∧ queue q ≠ [])
  ∧ exec canStartNewJob q = q.
Proof.
  run_method. split; [|done].
  rewrite andb_true_iff, Z.ltb_lt, Z.ltb_lt.
  destruct (queue q); simpl; split; intros [? ?]; split; (done || lia).
Qed.

(** C9. [getNextJob()] returns the head of the pending queue, or nothing
    when the queue is empty; [getNextJob], [getJob] and [getStats] leave the
    whole tracker as it was. *)
Theorem queries_spec (q : QueueManager) :
  eval getNextJob q = head (queue q)
  ∧ exec getNextJob q = q
  ∧ (∀ jobId, eval (getJob jobId) q = jobs q !! jobId
              ∧ exec (getJob jobId) q = q)
  ∧ exec getStats q = q.
Proof.
  run_method. by destruct (queue q).
Qed.

(** ** updateImageStatus and startJob on malformed input *)

(** Solves a goal about a call of [updateImageStatus] that reaches the
    update, given the job and the image it finds. *)
Ltac run_update Hjob Himg :=
  run_method; rewrite ?Hjob; simpl; rewrite ?Himg; simpl.

Lemma updateImageStatus_unknown now jobId imageIndex status data q :
  jobs q !! jobId = None →
  updateImageStatus now jobId imageIndex status data q = (tt, q).
Proof. intros Hjob. run_method. by rewrite Hjob. Qed.

Lemma updateImageStatus_out_of_range now jobId imageIndex status data q job :
  jobs q !! jobId = Some job →
  imageIndex < 0 ∨ Z.of_nat (length (Job.images job)) ≤ imageIndex →
  updateImageStatus now jobId imageIndex status data q = (tt, q).
Proof.
  intros Hjob Hrange. apply at_index_None in Hrange.
  run_method. by rewrite Hjob, Hrange.
Qed.

Lemma startJob_unknown jobId q :
  jobs q !! jobId = None → startJob jobId q = (tt, q).
Proof. intros Hjob. run_method. by rewrite Hjob. Qed.

(** C7. [updateImageStatus] with an id that is not registered, or with an
    index outside the job's images, and [startJob] with an id that is not
    registered, return normally and leave the whole tracker as it was: job
    map, active set, pending queue, counters, and nothing is emitted. *)
Theorem malformed_calls_are_noops (q : QueueManager) :
  (∀ now jobId imageIndex status data,
     jobs q !! jobId = None →
     updateImageStatus now jobId imageIndex status data q = (tt, q))
  ∧ (∀ now jobId imageIndex status data job,
       jobs q !! jobId = Some job →
       imageIndex < 0 ∨ Z.of_nat (length (Job.images job)) ≤ imageIndex →
       updateImageStatus now jobId imageIndex status data q = (tt, q))
  ∧ (∀ jobId, jobs q !! jobId = None → startJob jobId q = (tt, q)).
Proof.
  split; [|split].
  - intros. by apply updateImageStatus_unknown.
  - intros. by eapply updateImageStatus_out_of_range.
  - intros. by apply startJob_unknown.
Qed.

Lemma malformed_calls_are_noops_witness :
  updateImageStatus 1 "job-z" 0 "completed" Data.empty two_images
    = (tt, two_images)
  ∧ updateImageStatus 1 "job-a" 2 "completed" Data.empty two_images
    = (tt, two_images)
  ∧ updateImageStatus 1 "job-a" (-1) "completed" Data.empty two_images
    = (tt, two_images)
  ∧ startJob "job-z" two_images = (tt, two_images).
Proof.
  pose proof (malformed_calls_are_noops two_images) as (Hid & Hindex & Hstart).
  split; [apply Hid; reflexivity|].
  split; [eapply Hindex; [reflexivity | right; simpl; lia]|].
  split; [eapply Hindex; [reflexivity | left; lia]|].
  apply Hstart; reflexivity.
Defined.

(** ** updateImageStatus on a registered job and an index in range *)

Lemma updateImageStatus_valid now jobId imageIndex status data q job image :
  jobs q !! jobId = Some job →
  at_index (Job.images job) imageIndex = Some image →
  let job' := job_after_update now imageIndex status data job image in
  let allDone := forallb terminal (Job.images job') in
  exec (updateImageStatus now jobId imageIndex status data) q =
    mkQueueManager (maxConcurrent q) (<[jobId := job']> (jobs q))
      (if allDone then activeJobs q ∖ {[jobId]} else activeJobs q)
      (queue q)
      (emitted q ++ (if allDone then [jobComplete jobId] else [])
                 ++ [jobUpdate jobId job'])%list.
Proof.
  intros Hjob Himg. unfold job_after_update. run_update Hjob Himg.
  destruct (forallb terminal _); simpl; [|done].
  by rewrite <- app_assoc.
Qed.

Lemma update_image_status status data image :
  Image.status (update_image status data image) = status.
Proof.
  unfold update_image.
  by destruct (truthy (Data.outputPath data)), (truthy (Data.error data)),
    (truthy (Data.analysis data)).
Qed.

Lemma update_image_path status data image :
  Image.path (update_image status data image) = Image.path image.
Proof.
  unfold update_image.
  by destruct (truthy (Data.outputPath data)), (truthy (Data.error data)),
    (truthy (Data.analysis data)).
Qed.

Lemma update_progress_pending old status p :
  Progress.pending (update_progress old status p) =
  Progress.pending p - (if String.eqb old "pending" then 1 else 0).
Proof.
  unfold update_progress.
  destruct (String.eqb old "pending"), (String.eqb status "completed"),
    (String.eqb status "failed"); simpl; lia.
Qed.

Lemma update_progress_total old status p :
  Progress.total (update_progress old status p) = Progress.total p.
Proof.
  unfold update_progress.
  by destruct (String.eqb status "completed"), (String.eqb status "failed").
Qed.

Lemma at_index_insert {A} (arr : list A) i x y :
  at_index arr i = Some x →
  at_index (<[Z.to_nat i := y]> arr) i = Some y.
Proof.
  rewrite !at_index_Some. intros [Hpos Hlook]. split; [done|].
  apply list_lookup_insert_eq. by eapply lookup_lt_Some.
Qed.

(** The three ways a call of [updateImageStatus] on [q] can go: no job, no
    image, or the update; the first two leave [q] in the goal. *)
Ltac update_cases q jobId i job image Hjob Himg :=
  destruct (jobs q !! jobId) as [job|] eqn:Hjob;
  [ destruct (at_index (Job.images job) i) as [image|] eqn:Himg;
    [ rewrite (updateImageStatus_valid _ _ _ _ _ _ _ _ Hjob Himg)
    | unfold exec;
      rewrite (updateImageStatus_out_of_range _ _ _ _ _ _ _ Hjob)
        by (by apply at_index_None) ]
  | unfold exec; rewrite updateImageStatus_unknown by done ]; simpl.

(** C4. An update of a registered job at an index in range takes one off
    [progress.pending] exactly when the image was pending before the call,
    and leaves it alone otherwise; so after a first update with a status
    other than pending (completed, say), a second update of the same index
    (failed, say) does not touch [progress.pending]. *)
Theorem pending_guard (now : Z) (jobId : string) (imageIndex : Z)
    (status : string) (data : Data.t) (q : QueueManager) (job : Job.t)
    (image : Image.t) :
  jobs q !! jobId = Some job →
  at_index (Job.images job) imageIndex = Some image →
  let q1 := exec (updateImageStatus now jobId imageIndex status data) q in
  ∃ job1,
    jobs q1 !! jobId = Some job1
    ∧ Progress.pending (Job.progress job1) =
        Progress.pending (Job.progress job)
        - (if String.eqb (Image.status image) "pending" then 1 else 0)
    ∧ (status ≠ "pending" →
       ∀ now2 status2 data2,
         let q2 :=
           exec (updateImageStatus now2 jobId imageIndex status2 data2) q1 in
         ∃ job2,
           jobs q2 !! jobId = Some job2
           ∧ Progress.pending (Job.progress job2) =
               Progress.pending (Job.progress job1)).
Proof.
  intros Hjob Himg q1.
  set (image1 := update_image status data image).
  set (job1 := job_after_update now imageIndex status data job image).
  assert (Hjob1 : jobs q1 !! jobId = Some job1).
  { unfold q1. rewrite (updateImageStatus_valid _ _ _ _ _ _ _ _ Hjob Himg).
    apply lookup_insert_eq. }
  assert (Himg1 : at_index (Job.images job1) imageIndex = Some image1).
  { by apply at_index_insert with image. }
  exists job1. split; [done|]. split.
  { apply update_progress_pending. }
  intros Hne now2 status2 data2 q2.
  exists (job_after_update now2 imageIndex status2 data2 job1 image1).
  split.
  - unfold q2. rewrite (updateImageStatus_valid _ _ _ _ _ _ _ _ Hjob1 Himg1).
    apply lookup_insert_eq.
  - simpl. rewrite update_progress_pending. unfold image1.
    rewrite update_image_status.
    destruct (String.eqb_spec status "pending"); [done | lia].
Qed.

Lemma pending_guard_witness :
  ∃ job1,
    jobs (exec (updateImageStatus 1 "job-a" 0 "completed" Data.empty)
               two_images) !! "job-a" = Some job1
    ∧ Progress.pending (Job.progress job1) = 2 - 1
    ∧ ("completed" ≠ "pending" →
       ∀ now2 status2 data2,
       ∃ job2,
         jobs (exec (updateImageStatus now2 "job-a" 0 status2 data2)
                 (exec (updateImageStatus 1 "job-a" 0 "completed" Data.empty)
                       two_images)) !! "job-a" = Some job2
         ∧ Progress.pending (Job.progress job2) =
             Progress.pending (Job.progress job1)).
Proof.
  apply (pending_guard 1 "job-a" 0 "completed" Data.empty two_images
           (eval (createJob 0 "job-a" ["a.png"; "b.png"]) (new 3))
           (new_image "a.png")); reflexivity.
Defined.

(** C10. An update of a registered job at an index in range leaves every
    other image of the job as it was, keeps the number of images, every
    image's [path], the job's [jobId] and [createdAt], and leaves every
    other job as it was: its record, whether it is in the active set, and
    the pending queue as a whole. *)
Theorem updateImageStatus_frame (now : Z) (jobId : string) (imageIndex : Z)
    (status : string) (data : Data.t) (q : QueueManager) (job : Job.t)
    (image : Image.t) :
  jobs q !! jobId = Some job →
  at_index (Job.images job) imageIndex = Some image →
  let q' := exec (updateImageStatus now jobId imageIndex status data) q in
  (∃ job',
     jobs q' !! jobId = Some job'
     ∧ length (Job.images job') = length (Job.images job)
     ∧ (∀ k : nat, Z.of_nat k ≠ imageIndex →
          Job.images job' !! k = Job.images job !! k)
     ∧ (∀ k : nat, Image.path <$> Job.images job' !! k =
                   Image.path <$> Job.images job !! k)
     ∧ Job.jobId job' = Job.jobId job
     ∧ Job.createdAt job' = Job.createdAt job)
  ∧ (∀ other, other ≠ jobId → jobs q' !! other = jobs q !! other)
  ∧ (∀ other, other ≠ jobId → other ∈ activeJobs q' ↔ other ∈ activeJobs q)
  ∧ queue q' = queue q
  ∧ maxConcurrent q' = maxConcurrent q.
Proof.
  intros Hjob Himg q'. unfold q'.
  rewrite (updateImageStatus_valid _ _ _ _ _ _ _ _ Hjob Himg). simpl.
  apply at_index_Some in Himg as [Hpos Hlook].
  split; [|split; [|split; [|done]]].
  - eexists. split; [apply lookup_insert_eq|]. simpl.
    split; [apply length_insert|]. split; [|split; [|done]].
    + intros k Hk. apply list_lookup_insert_ne. lia.
    + intros k. destruct (decide (Z.to_nat imageIndex = k)) as [<-|Hk].
      * rewrite list_lookup_insert_eq by by eapply lookup_lt_Some.
        rewrite Hlook. simpl. by rewrite update_image_path.
      * by rewrite list_lookup_insert_ne.
  - intros other Hne. by apply lookup_insert_ne.
  - intros other Hne. destruct (forallb terminal _); [|done].
    rewrite elem_of_difference, elem_of_singleton. tauto.
Qed.

Lemma updateImageStatus_frame_witness :
  let q' := exec (updateImageStatus 1 "job-a" 0 "completed" Data.empty)
                 two_images in
  (∃ job',
     jobs q' !! "job-a" = Some job'
     ∧ length (Job.images job') = 2%nat
     ∧ (∀ k : nat, Z.of_nat k ≠ 0 →
          Job.images job' !! k = [new_image "a.png"; new_image "b.png"] !! k)
     ∧ (∀ k : nat, Image.path <$> Job.images job' !! k =
                   Image.path <$> [new_image "a.png"; new_image "b.png"] !! k)
     ∧ Job.jobId job' = "job-a"
     ∧ Job.createdAt job' = 0)
  ∧ (∀ other, other ≠ "job-a" → jobs q' !! other = jobs two_images !! other)
  ∧ (∀ other, other ≠ "job-a" →
       other ∈ activeJobs q' ↔ other ∈ activeJobs two_images)
  ∧ queue q' = queue two_images
  ∧ maxConcurrent q' = maxConcurrent two_images.
Proof.
  apply (updateImageStatus_frame 1 "job-a" 0 "completed" Data.empty two_images
           (eval (createJob 0 "job-a" ["a.png"; "b.png"]) (new 3))
           (new_image "a.png")); reflexivity.
Defined.

(** ** Completion of a job *)

Lemma terminal_spec img :
  terminal img = true ↔
  Image.status img = "completed" ∨ Image.status img = "failed".
Proof.
  unfold terminal. rewrite orb_true_iff.
  by rewrite !String.eqb_eq.
Qed.

Lemma forallb_terminal images :
  forallb terminal images = true ↔ all_terminal images.
Proof.
  unfold all_terminal. rewrite forallb_forall.
  split; intros H img Hin.
  - apply terminal_spec, H. by apply list_elem_of_In.
  - apply terminal_spec, H. by apply list_elem_of_In.
Qed.

Lemma count_jobComplete_app jobId log1 log2 :
  count_jobComplete jobId (log1 ++ log2) =
  (count_jobComplete jobId log1 + count_jobComplete jobId log2)%nat.
Proof.
  induction log1 as [|e log1 IH]; [done|]. simpl.
  destruct e; [done| |done].
  destruct (String.eqb _ _); simpl; by rewrite IH.
Qed.




(** ** Jobs without images *)

(** C3, as the code has it. [startJob] on a job created with no image
    makes it processing, not completed: [completedAt] stays unset and the
    one notification is [jobStart]. No update completes the job later:
    every index is out of range, so every [updateImageStatus] on it returns
    at once and changes nothing. *)
Theorem startJob_empty_job (now : Z) (jobId : string) (q : QueueManager) :
  let q1 := exec (createJob now jobId []) q in
  let q2 := exec (startJob jobId) q1 in
  jobs q2 !! jobId =
    Some (Job.mk jobId "processing" [] now None (Progress.mk 0 0 0 0))
  ∧ emitted q2 = (emitted q ++ [jobStart jobId])%list
  ∧ count_jobComplete jobId (emitted q2) = count_jobComplete jobId (emitted q)
  ∧ jobId ∈ activeJobs q2
  ∧ (∀ now' imageIndex status data,
       updateImageStatus now' jobId imageIndex status data q2 = (tt, q2)).
Proof.
  intros q1 q2.
  assert (Hjob : jobs q2 !! jobId =
    Some (Job.mk jobId "processing" [] now None (Progress.mk 0 0 0 0))).
  { unfold q2, q1. run_method. rewrite lookup_insert_eq. simpl.
    apply lookup_insert_eq. }
  assert (Hlog : emitted q2 = (emitted q ++ [jobStart jobId])%list).
  { unfold q2, q1. run_method. by rewrite lookup_insert_eq. }
  split; [done|]. split; [done|]. split; [|split].
  - rewrite Hlog, count_jobComplete_app. simpl. lia.
  - unfold q2, q1. run_method. rewrite lookup_insert_eq. simpl.
    apply elem_of_union_l, elem_of_singleton. reflexivity.
  - intros now' i status data.
    apply updateImageStatus_out_of_range with (1 := Hjob).
    simpl. lia.
Qed.

(** C3 as stated fails: after [createJob] with no path and [startJob], the
    job is processing, [completedAt] is unset and [jobComplete] has not
    been emitted. *)
Lemma empty_job_not_completed :
  let q := run [CreateJob 0 "job-e" []; StartJob "job-e"] (new 3) in
  Job.status <$> jobs q !! "job-e" = Some "processing"
  ∧ Job.completedAt <$> jobs q !! "job-e" = Some None
  ∧ emitted q = [jobStart "job-e"].
Proof. repeat split; reflexivity. Qed.

(** ** The progress counters *)

Lemma count_status_new st paths :
  count_status st (new_image <$> paths) =
  if String.eqb "pending" st then Z.of_nat (length paths) else 0.
Proof.
  induction paths as [|p paths IH].
  - by destruct (String.eqb "pending" st).
  - change (count_status st (new_image <$> p :: paths))
      with ((if String.eqb "pending" st then 1 else 0)
            + count_status st (new_image <$> paths)).
    rewrite IH, length_cons, Nat2Z.inj_succ.
    destruct (String.eqb "pending" st); lia.
Qed.

Lemma count_status_insert st (images : list Image.t) (n : nat) old new :
  images !! n = Some old →
  count_status st (<[n := new]> images) =
  count_status st images
  - (if String.eqb (Image.status old) st then 1 else 0)
  + (if String.eqb (Image.status new) st then 1 else 0).
Proof.
  revert n. induction images as [|img rest IH]; intros [|n] Hn;
    simpl in *; try done.
  - injection Hn as ->. lia.
  - rewrite (IH n Hn). lia.
Qed.

Lemma count_status_partition images :
  Forall known_status images →
  count_status "pending" images + count_status "processing" images
  + count_status "completed" images + count_status "failed" images
  = Z.of_nat (length images).
Proof.
  induction 1 as [|img rest Hk _ IH]; [done|].
  cbn [count_status length]. rewrite Nat2Z.inj_succ.
  destruct Hk as [-> | [-> | [-> | ->]]]; simpl; lia.
Qed.

Lemma counters_exact_new now jobId paths :
  counters_exact (eval (createJob now jobId paths) (new 0)).
Proof.
  unfold counters_exact. run_method. rewrite !count_status_new. simpl.
  rewrite length_fmap. repeat split.
  apply Forall_fmap, Forall_forall. intros p _. by left.
Qed.

Lemma counters_exact_update now imageIndex status data job image :
  counters_exact job →
  at_index (Job.images job) imageIndex = Some image →
  terminal image = false →
  status = "processing" ∨ status = "completed" ∨ status = "failed" →
  counters_exact (job_after_update now imageIndex status data job image).
Proof.
  intros (Htotal & Hpending & Hcompleted & Hfailed & Hknown) Himg Hterm Hst.
  apply at_index_Some in Himg as [_ Hlook].
  assert (Hold : Image.status image = "pending"
                 ∨ Image.status image = "processing").
  { pose proof (proj1 (Forall_lookup _ _) Hknown _ _ Hlook) as Hk.
    destruct Hk as [? | [? | Hk]]; [by left | by right |].
    apply terminal_spec in Hk. congruence. }
  unfold counters_exact, job_after_update. simpl.
  rewrite !(count_status_insert _ _ _ _ _ Hlook), !update_image_status.
  rewrite length_insert, update_progress_total.
  unfold update_progress. rewrite Hpending, Hcompleted, Hfailed.
  split; [done|].
  split; [|split; [|split]].
  - destruct Hold as [-> | ->], Hst as [-> | [-> | ->]]; simpl; lia.
  - destruct Hold as [-> | ->], Hst as [-> | [-> | ->]]; simpl; lia.
  - destruct Hold as [-> | ->], Hst as [-> | [-> | ->]]; simpl; lia.
  - apply Forall_insert; [done|]. unfold known_status.
    rewrite update_image_status. tauto.
Qed.

Lemma all_counters_exact_call q c :
  all_counters_exact q → in_lifecycle q c = true →
  all_counters_exact (call c q).
Proof.
  intros Hinv Hc jobId' job'. destruct c as [now jobId paths | jobId
    | now jobId i status data | jobId]; simpl.
  - run_method. destruct (decide (jobId = jobId')) as [->|Hne].
    + rewrite lookup_insert_eq. intros [= <-].
      apply (counters_exact_new now jobId' paths).
    + rewrite lookup_insert_ne by done. apply Hinv.
  - run_method. destruct (jobs q !! jobId) as [job|] eqn:Hjob; simpl;
      [|apply Hinv].
    destruct (decide (jobId = jobId')) as [->|Hne].
    + rewrite lookup_insert_eq. intros [= <-]. apply (Hinv _ _ Hjob).
    + rewrite lookup_insert_ne by done. apply Hinv.
  - simpl in Hc. apply andb_true_iff in Hc as [Hst Hc].
    update_cases q jobId i job image Hjob Himg; [|apply Hinv..].
    destruct (decide (jobId = jobId')) as [->|Hne].
    + rewrite lookup_insert_eq. intros [= <-].
      apply counters_exact_update; [by eapply Hinv | done | |].
      * by apply negb_true_iff.
      * rewrite !orb_true_iff, !String.eqb_eq in Hst. tauto.
    + rewrite lookup_insert_ne by done. apply Hinv.
  - run_method. intros Hlook. apply lookup_delete_Some in Hlook as [_ Hlook].
    by eapply Hinv.
Qed.

Lemma all_counters_exact_run cs q :
  all_counters_exact q → lifecycle cs q = true →
  all_counters_exact (run cs q).
Proof.
  revert q. induction cs as [|c cs IH]; intros q Hinv Hcs; [done|].
  simpl in Hcs. apply andb_true_iff in Hcs as [Hc Hcs].
  apply IH; [by apply all_counters_exact_call | done].
Qed.

(** C1, as the code has it. The counters have no slot for an image that
    is being processed: [pending] goes down when an image leaves pending,
    [completed] and [failed] go up only at the end. After any sequence of
    calls that respects the discipline of the processing loop, every job
    has [completed + failed + pending] plus the number of its images in
    status processing equal to [total], so the three counters add up to
    [total] exactly when no image of the job is being processed. *)
Theorem progress_counters_sum (maxConcurrent : Z) (cs : list Call)
    (jobId : string) (job : Job.t) :
  lifecycle cs (new maxConcurrent) = true →
  jobs (run cs (new maxConcurrent)) !! jobId = Some job →
  let p := Job.progress job in
  Progress.completed p + Progress.failed p + Progress.pending p
    + count_status "processing" (Job.images job) = Progress.total p
  ∧ (Progress.completed p + Progress.failed p + Progress.pending p
       = Progress.total p
     ↔ count_status "processing" (Job.images job) = 0).
Proof.
  intros Hcs Hjob p.
  assert (Hinv : all_counters_exact (run cs (new maxConcurrent))).
  { apply all_counters_exact_run; [|done]. intros j jb Hj. done. }
  destruct (Hinv _ _ Hjob) as (Htotal & Hpending & Hcompleted & Hfailed & Hk).
  pose proof (count_status_partition _ Hk). unfold p. lia.
Qed.

Lemma progress_counters_sum_witness :
  let job := Job.mk "job-a" "processing"
               [Image.mk "a.png" "processing" None None None] 0 None
               (Progress.mk 1 0 0 0) in
  let p := Job.progress job in
  Progress.completed p + Progress.failed p + Progress.pending p
    + count_status "processing" (Job.images job) = Progress.total p
  ∧ (Progress.completed p + Progress.failed p + Progress.pending p
       = Progress.total p
     ↔ count_status "processing" (Job.images job) = 0).
Proof.
  apply (progress_counters_sum 3
           [CreateJob 0 "job-a" ["a.png"]; StartJob "job-a";
            UpdateImageStatus 1 "job-a" 0 "processing" Data.empty]
           "job-a"); reflexivity.
Defined.

(** C1 as stated fails: a job with one image is created and started and
    its image is reported as processing, as the processing loop does before
    it calls the provider. Then [total] is 1 while [completed], [failed]
    and [pending] are all 0. *)
Lemma progress_sum_short_while_processing :
  let q := run [CreateJob 0 "job-a" ["a.png"]; StartJob "job-a";
                UpdateImageStatus 1 "job-a" 0 "processing" Data.empty]
               (new 3) in
  ∃ job,
    jobs q !! "job-a" = Some job
    ∧ Progress.total (Job.progress job) = 1
    ∧ Progress.completed (Job.progress job)
      + Progress.failed (Job.progress job)
      + Progress.pending (Job.progress job) = 0.
Proof. eexists. repeat split; reflexivity. Qed.

(** ** removeJob *)

Lemma indexes_consistent_new maxConcurrent :
  indexes_consistent (new maxConcurrent).
Proof.
  split; [constructor|]. split; simpl.
  - intros jobId Hin. by apply elem_of_nil in Hin.
  - intros jobId Hin. by apply not_elem_of_empty in Hin.
Qed.

Lemma existsb_eqb_elem_of (x : string) (arr : list string) :
  x ∈ arr → existsb (String.eqb x) arr = true.
Proof.
  intros Hin. apply existsb_exists. exists x.
  split; [by apply list_elem_of_In | apply String.eqb_refl].
Qed.

Lemma indexes_consistent_call_unqueued q c :
  indexes_consistent q → unqueued_id q c = true →
  indexes_consistent (call c q).
Proof.
  intros (Hnd & Hqueue & Hactive) Hc.
  destruct c as [now jobId paths | jobId | now jobId i status data | jobId];
    simpl.
  - simpl in Hc. apply negb_true_iff in Hc.
    run_method. split; [|split]; simpl.
    + apply NoDup_app. split; [done|]. split; [|apply NoDup_singleton].
      intros x Hx ->%list_elem_of_singleton.
      apply existsb_eqb_elem_of in Hx. congruence.
    + intros x [Hx | ->%list_elem_of_singleton]%elem_of_app.
      * apply lookup_insert_is_Some. destruct (decide (jobId = x)); auto.
      * apply lookup_insert_is_Some. by left.
    + intros x Hx. apply lookup_insert_is_Some.
      destruct (decide (jobId = x)); auto.
  - run_method. destruct (jobs q !! jobId) as [job|] eqn:Hjob; simpl;
      [|done].
    split; [|split]; simpl.
    + by apply splice_first_preserves_NoDup.
    + intros x Hx%splice_first_sub. apply lookup_insert_is_Some.
      destruct (decide (jobId = x)); auto.
    + intros x Hx. apply lookup_insert_is_Some.
      destruct (decide (jobId = x)); [by left | right].
      split; [done|]. apply Hactive.
      apply elem_of_union in Hx as [Hx%elem_of_singleton | Hx];
        [congruence | done].
  - update_cases q jobId i job image Hjob Himg; [|done..].
    split; [|split]; simpl.
    + done.
    + intros x Hx. apply lookup_insert_is_Some.
      destruct (decide (jobId = x)); auto.
    + intros x Hx. apply lookup_insert_is_Some.
      destruct (decide (jobId = x)); [by left | right].
      split; [done|]. apply Hactive.
      destruct (forallb terminal _); [|done].
      by apply elem_of_difference in Hx as [Hx _].
  - run_method. split; [|split]; simpl.
    + by apply splice_first_preserves_NoDup.
    + intros x Hx. destruct (decide (x = jobId)) as [->|Hne].
      * by apply splice_first_NoDup in Hx.
      * rewrite lookup_delete_ne by done.
        by apply Hqueue, splice_first_sub with jobId.
    + intros x [Hx Hne%not_elem_of_singleton]%elem_of_difference.
      rewrite lookup_delete_ne by done. by apply Hactive.
Qed.

Lemma fresh_id_unqueued q c :
  indexes_consistent q → fresh_id q c = true → unqueued_id q c = true.
Proof.
  intros (_ & Hqueue & _) Hc. destruct c as [now jobId paths | | |]; [|done..].
  simpl in *. destruct (jobs q !! jobId) eqn:Hjob; [done|].
  apply negb_true_iff, not_true_is_false.
  intros (x & Hx & ->%String.eqb_eq)%existsb_exists.
  apply list_elem_of_In, Hqueue in Hx as [? Hx]. congruence.
Qed.

Lemma indexes_consistent_call q c :
  indexes_consistent q → fresh_id q c = true →
  indexes_consistent (call c q).
Proof.
  intros Hinv Hc.
  by apply indexes_consistent_call_unqueued, fresh_id_unqueued.
Qed.

Lemma indexes_consistent_run cs q :
  indexes_consistent q → fresh_ids cs q = true →
  indexes_consistent (run cs q).
Proof.
  revert q. induction cs as [|c cs IH]; intros q Hinv Hcs; [done|].
  simpl in Hcs. apply andb_true_iff in Hcs as [Hc Hcs].
  apply IH; [by apply indexes_consistent_call | done].
Qed.

Lemma indexes_consistent_run_unqueued cs q :
  indexes_consistent q → unqueued_ids cs q = true →
  indexes_consistent (run cs q).
Proof.
  revert q. induction cs as [|c cs IH]; intros q Hinv Hcs; [done|].
  simpl in Hcs. apply andb_true_iff in Hcs as [Hc Hcs].
  apply IH; [by apply indexes_consistent_call_unqueued | done].
Qed.

(** Calls that only give [createJob] ids that are not registered, and so
    calls that use every id once, are calls of the kind above. *)
Lemma fresh_ids_unqueued_ids cs q :
  indexes_consistent q → fresh_ids cs q = true → unqueued_ids cs q = true.
Proof.
  revert q. induction cs as [|c cs IH]; intros q Hinv Hcs; [done|].
  simpl in *. apply andb_true_iff in Hcs as [Hc Hcs].
  rewrite (fresh_id_unqueued _ _ Hinv Hc). simpl.
  apply IH; [by apply indexes_consistent_call | done].
Qed.

Lemma removeJob_absent jobId q :
  jobs q !! jobId = None → jobId ∉ activeJobs q → jobId ∉ queue q →
  removeJob jobId q = (tt, q).
Proof.
  intros Hjob Hactive Hqueue. run_method.
  rewrite delete_id by done. rewrite splice_first_notin by done.
  rewrite difference_disjoint_L by by apply disjoint_singleton_r.
  by destruct q.
Qed.

(** C8. After [removeJob(jobId)] the id is absent from the job map, the
    active set and the pending queue, [getJob(jobId)] returns nothing and
    the other jobs are as they were; [removeJob] of an id that is not
    registered changes nothing, and neither does a second
    [removeJob(jobId)]. This holds in every state that the callers of
    [createJob] can reach while they keep their side of it, a unique id per
    job; it is proved for all calls in which [createJob] is never given an
    id that is still waiting in the pending queue, which also covers an id
    that is used again once its job is started or removed. *)
Theorem removeJob_spec (maxConcurrent : Z) (cs : list Call)
    (jobId : string) :
  unqueued_ids cs (new maxConcurrent) = true →
  let q := run cs (new maxConcurrent) in
  let q' := exec (removeJob jobId) q in
  jobs q' !! jobId = None
  ∧ (jobId ∉ activeJobs q')
  ∧ (jobId ∉ queue q')
  ∧ eval (getJob jobId) q' = None
  ∧ (∀ other, other ≠ jobId → jobs q' !! other = jobs q !! other)
  ∧ (jobs q !! jobId = None → removeJob jobId q = (tt, q))
  ∧ removeJob jobId q' = (tt, q').
Proof.
  intros Hcs q q'.
  assert (Hinv : indexes_consistent q).
  { apply indexes_consistent_run_unqueued;
      [apply indexes_consistent_new | done]. }
  destruct Hinv as (Hnd & Hqueue & Hactive).
  assert (Hjob' : jobs q' !! jobId = None).
  { unfold q'. run_method. apply lookup_delete_eq. }
  assert (Hactive' : jobId ∉ activeJobs q').
  { unfold q'. run_method. rewrite elem_of_difference, elem_of_singleton.
    tauto. }
  assert (Hqueue' : jobId ∉ queue q').
  { unfold q'. run_method. by apply splice_first_NoDup. }
  split; [done|]. split; [done|]. split; [done|].
  split; [by run_method|].
  split; [|split].
  - intros other Hne. unfold q'. run_method. by apply lookup_delete_ne.
  - intros Hjob. apply removeJob_absent; [done| |].
    + intros Hin. apply Hactive in Hin as [? Hin]. congruence.
    + intros Hin. apply Hqueue in Hin as [? Hin]. congruence.
  - by apply removeJob_absent.
Qed.

Lemma removeJob_spec_witness :
  let q := run [CreateJob 0 "job-a" ["a.png"]; CreateJob 1 "job-b" [];
                StartJob "job-a"; CreateJob 2 "job-a" ["c.png"]] (new 3) in
  let q' := exec (removeJob "job-a") q in
  jobs q' !! "job-a" = None
  ∧ ("job-a" ∉ activeJobs q')
  ∧ ("job-a" ∉ queue q')
  ∧ eval (getJob "job-a") q' = None
  ∧ (∀ other, other ≠ "job-a" → jobs q' !! other = jobs q !! other)
  ∧ (jobs q !! "job-a" = None → removeJob "job-a" q = (tt, q))
  ∧ removeJob "job-a" q' = (tt, q').
Proof.
  apply (removeJob_spec 3
           [CreateJob 0 "job-a" ["a.png"]; CreateJob 1 "job-b" [];
            StartJob "job-a"; CreateJob 2 "job-a" ["c.png"]] "job-a").
  reflexivity.
Defined.

(** The caller's side is needed. When [createJob] is given an id that is
    still waiting in the queue, which the tracker accepts, the id is queued
    twice; [removeJob] takes the first occurrence out, as [indexOf] and
    [splice] do, and the second stays until [removeJob] is called again. *)
Example removeJob_leaves_queue_entry :
  let q := run [CreateJob 0 "job-a" ["a.png"];
                CreateJob 1 "job-a" ["b.png"]] (new 3) in
  let q' := exec (removeJob "job-a") q in
  queue q = ["job-a"; "job-a"]
  ∧ queue q' = ["job-a"]
  ∧ jobs q' !! "job-a" = None
  ∧ queue (exec (removeJob "job-a") q') = [].
Proof. repeat split; reflexivity. Qed.

(** ** One completion per job within the discipline *)

Section OneCompletion.
Variable jobId : string.

Lemma call_counts_jobComplete q c :
  creates jobId c = false →
  count_jobComplete jobId (emitted (call c q))
    = count_jobComplete jobId (emitted q)
  ∨ (count_jobComplete jobId (emitted (call c q))
       = S (count_jobComplete jobId (emitted q))
     ∧ settled jobId (call c q)).
Proof.
  intros Hc.
  destruct c as [now j paths | j | now j i status data | j]; simpl.
  - left. by run_method.
  - left. run_method. destruct (jobs q !! j); simpl; [|done].
    rewrite count_jobComplete_app. simpl. lia.
  - update_cases q j i job image Hjob Himg; [|by left..].
    rewrite !count_jobComplete_app.
    destruct (forallb terminal _) eqn:Hdone; simpl; [|left; lia].
    destruct (String.eqb_spec j jobId) as [->|Hne]; [right | left; lia].
    split; [lia|]. intros job'. simpl. rewrite lookup_insert_eq.
    by intros [= <-].
  - left. by run_method.
Qed.

Lemma call_settled q c :
  creates jobId c = false → in_lifecycle q c = true → settled jobId q →
  settled jobId (call c q)
  ∧ count_jobComplete jobId (emitted (call c q))
      = count_jobComplete jobId (emitted q).
Proof.
  intros Hc Hlife Hset.
  destruct c as [now j paths | j | now j i status data | j]; simpl.
  - simpl in Hc. apply String.eqb_neq in Hc.
    split; [|by run_method]. intros job. run_method.
    rewrite lookup_insert_ne by done. apply Hset.
  - run_method. destruct (jobs q !! j) as [job|] eqn:Hjob; simpl; [|done].
    split.
    + intros job'. simpl. destruct (decide (j = jobId)) as [->|Hne].
      * rewrite lookup_insert_eq. intros [= <-]. simpl. by apply Hset.
      * rewrite lookup_insert_ne by done. apply Hset.
    + rewrite count_jobComplete_app. simpl. lia.
  - simpl in Hlife. apply andb_true_iff in Hlife as [_ Hlife].
    update_cases q j i job image Hjob Himg; [|done..].
    destruct (String.eqb_spec j jobId) as [->|Hne].
    + exfalso. apply negb_true_iff in Hlife.
      pose proof (Hset _ Hjob) as Hall.
      rewrite forallb_forall in Hall.
      apply at_index_Some in Himg as [_ Hlook].
      apply list_elem_of_lookup_2, list_elem_of_In in Hlook.
      apply Hall in Hlook. congruence.
    + split.
      * intros job'. simpl. rewrite lookup_insert_ne by done. apply Hset.
      * rewrite !count_jobComplete_app.
        destruct (forallb terminal _); simpl; [|lia].
        apply String.eqb_neq in Hne. rewrite Hne. lia.
  - split; [|by run_method]. intros job. run_method.
    intros Hlook. apply lookup_delete_Some in Hlook as [_ Hlook].
    by apply Hset.
Qed.

Lemma run_settled cs q :
  (∀ c, c ∈ cs → creates jobId c = false) →
  lifecycle cs q = true → settled jobId q →
  count_jobComplete jobId (emitted (run cs q))
    = count_jobComplete jobId (emitted q).
Proof.
  revert q. induction cs as [|c cs IH]; intros q Hcs Hlife Hset; [done|].
  simpl in Hlife. apply andb_true_iff in Hlife as [Hc Hlife].
  destruct (call_settled q c) as [Hset' Hcount]; [|done|done|].
  { apply Hcs. by left. }
  simpl. rewrite IH; [done | | done | done].
  intros c' Hc'. apply Hcs. by right.
Qed.

(** X23. Within the discipline of the processing loop, and as long as the
    id is not given to [createJob] again, [jobComplete(jobId)] is emitted at
    most once, also for a job that is removed on the way. *)
Lemma jobComplete_at_most_once cs q :
  (∀ c, c ∈ cs → creates jobId c = false) →
  lifecycle cs q = true →
  (count_jobComplete jobId (emitted (run cs q))
   ≤ S (count_jobComplete jobId (emitted q)))%nat.
Proof.
  revert q. induction cs as [|c cs IH]; intros q Hcs Hlife; [simpl; lia|].
  simpl in Hlife. apply andb_true_iff in Hlife as [Hc Hlife].
  assert (Hcs' : ∀ c', c' ∈ cs → creates jobId c' = false).
  { intros c' Hc'. apply Hcs. by right. }
  destruct (call_counts_jobComplete q c) as [Hsame | [Hone Hset]].
  { apply Hcs. by left. }
  - simpl. rewrite <- Hsame. by apply IH.
  - simpl. rewrite (run_settled cs _) by auto. lia.
Qed.

End OneCompletion.

(** ** Outside the discipline *)

(** The discipline is needed for the counters: when an image that is
    completed is reported once more, as failed, both [completed] and
    [failed] count it, and the three counters add up to 2 for a job of one
    image. *)
Example counters_after_repeated_update :
  let q := exec (updateImageStatus 2 "job-a" 0 "failed" Data.empty)
                completed_once in
  Job.progress <$> jobs q !! "job-a" = Some (Progress.mk 1 1 1 0).
Proof. reflexivity. Qed.

(** * Further properties of the tracker *)

(** ** Properties of every job, whatever the calls *)

Section JobInvariant.
Variable P : Job.t → Prop.
Variable ok : Call → bool.
Hypothesis P_create :
  ∀ now jobId paths, P (eval (createJob now jobId paths) (new 0)).
Hypothesis P_start : ∀ job, P job → P (started job).
Hypothesis P_update :
  ∀ now jobId i status data job image,
    ok (UpdateImageStatus now jobId i status data) = true →
    P job → at_index (Job.images job) i = Some image →
    P (job_after_update now i status data job image).

Lemma job_invariant_call q c :
  (∀ id job, jobs q !! id = Some job → P job) → ok c = true →
  ∀ id job, jobs (call c q) !! id = Some job → P job.
Proof.
  intros Hinv Hc id' job'.
  destruct c as [now id paths | id | now id i status data | id]; simpl.
  - run_method. destruct (decide (id = id')) as [->|Hne].
    + rewrite lookup_insert_eq. intros [= <-]. apply (P_create now id' paths).
    + rewrite lookup_insert_ne by done. apply Hinv.
  - run_method. destruct (jobs q !! id) as [job|] eqn:Hjob; simpl;
      [|apply Hinv].
    destruct (decide (id = id')) as [->|Hne].
    + rewrite lookup_insert_eq. intros [= <-]. by eapply (P_start job), Hinv.
    + rewrite lookup_insert_ne by done. apply Hinv.
  - update_cases q id i job image Hjob Himg; [|apply Hinv..].
    destruct (decide (id = id')) as [->|Hne].
    + rewrite lookup_insert_eq. intros [= <-].
      eapply P_update; [done | by eapply Hinv | done].
    + rewrite lookup_insert_ne by done. apply Hinv.
  - run_method. intros Hlook. apply lookup_delete_Some in Hlook as [_ Hlook].
    by eapply Hinv.
Qed.

Lemma job_invariant_run cs q :
  (∀ id job, jobs q !! id = Some job → P job) → forallb ok cs = true →
  ∀ id job, jobs (run cs q) !! id = Some job → P job.
Proof.
  revert q. induction cs as [|c cs IH]; intros q Hinv Hcs; [done|].
  simpl in Hcs. apply andb_true_iff in Hcs as [Hc Hcs].
  apply IH; [by apply job_invariant_call | done].
Qed.

End JobInvariant.

Lemma forallb_always {A} (l : list A) : forallb (λ _, true) l = true.
Proof. by induction l. Qed.

(** X1. Whatever calls are made, [progress.total] of a registered job is
    the number of its images. *)
Theorem total_is_image_count (maxConcurrent : Z) (cs : list Call)
    (jobId : string) (job : Job.t) :
  jobs (run cs (new maxConcurrent)) !! jobId = Some job →
  Progress.total (Job.progress job) = Z.of_nat (length (Job.images job)).
Proof.
  apply (job_invariant_run
           (λ job, Progress.total (Job.progress job)
                   = Z.of_nat (length (Job.images job)))
           (λ _, true)).
  - intros now id paths. run_method. by rewrite length_fmap.
  - done.
  - intros now id i status data jb image _ Hjb _. simpl.
    by rewrite update_progress_total, length_insert.
  - done.
  - apply forallb_always.
Qed.

Lemma total_is_image_count_witness :
  Progress.total (Progress.mk 1 1 1 0) = Z.of_nat 1.
Proof.
  apply (total_is_image_count 3
           [CreateJob 0 "job-a" ["a.png"]; StartJob "job-a";
            UpdateImageStatus 1 "job-a" 0 "completed" Data.empty;
            UpdateImageStatus 2 "job-a" 0 "failed" Data.empty]
           "job-a"
           (Job.mk "job-a" "completed"
              [Image.mk "a.png" "failed" None None None] 0 (Some 2)
              (Progress.mk 1 1 1 0))).
  reflexivity.
Defined.

(** X2. As long as no call passes the status pending to
    [updateImageStatus], [progress.pending] of a registered job is the
    number of its images whose status is pending, also when images are
    updated again after they are completed or failed; so it is never
    negative. *)
Theorem pending_counts_pending_images (maxConcurrent : Z) (cs : list Call)
    (jobId : string) (job : Job.t) :
  forallb reports_progress cs = true →
  jobs (run cs (new maxConcurrent)) !! jobId = Some job →
  Progress.pending (Job.progress job)
    = count_status "pending" (Job.images job)
  ∧ 0 ≤ Progress.pending (Job.progress job).
Proof.
  intros Hcs Hjob.
  assert (Hnonneg : ∀ images, 0 ≤ count_status "pending" images).
  { induction images as [|img rest IH]; simpl; [done|].
    destruct (String.eqb _ _); lia. }
  enough (Progress.pending (Job.progress job)
          = count_status "pending" (Job.images job)) as ->; [done|].
  revert Hcs jobId job Hjob.
  intros Hcs. apply (job_invariant_run
           (λ job, Progress.pending (Job.progress job)
                   = count_status "pending" (Job.images job))
           reports_progress); [| | | done | done].
  - intros now id paths. run_method. by rewrite count_status_new.
  - done.
  - intros now id i status data jb image Hok Hjb Himg. simpl in *.
    apply at_index_Some in Himg as [_ Hlook].
    rewrite update_progress_pending, (count_status_insert _ _ _ _ _ Hlook).
    rewrite update_image_status, Hjb.
    apply negb_true_iff in Hok. rewrite Hok. lia.
Qed.

Lemma pending_counts_pending_images_witness :
  Progress.pending (Progress.mk 2 1 1 1)
    = count_status "pending"
        [Image.mk "a.png" "failed" None None None; new_image "b.png"]
  ∧ 0 ≤ Progress.pending (Progress.mk 2 1 1 1).
Proof.
  apply (pending_counts_pending_images 3
           [CreateJob 0 "job-a" ["a.png"; "b.png"];
            UpdateImageStatus 1 "job-a" 0 "completed" Data.empty;
            UpdateImageStatus 2 "job-a" 0 "failed" Data.empty]
           "job-a"
           (Job.mk "job-a" "pending"
              [Image.mk "a.png" "failed" None None None; new_image "b.png"]
              0 None (Progress.mk 2 1 1 1))); reflexivity.
Defined.

(** X3. Whatever calls are made, a registered job whose status is completed
    has [completedAt] set. *)
Theorem completed_has_completedAt (maxConcurrent : Z) (cs : list Call)
    (jobId : string) (job : Job.t) :
  jobs (run cs (new maxConcurrent)) !! jobId = Some job →
  Job.status job = "completed" →
  is_Some (Job.completedAt job).
Proof.
  apply (job_invariant_run
           (λ job, Job.status job = "completed"
                   → is_Some (Job.completedAt job))
           (λ _, true)).
  - intros now id paths. run_method. discriminate.
  - intros jb _. simpl. discriminate.
  - intros now id i status data jb image _ Hjb _.
    unfold job_after_update. simpl.
    destruct (forallb terminal _); [by eexists | done].
  - done.
  - apply forallb_always.
Qed.

Lemma completed_has_completedAt_witness : is_Some (Some 1).
Proof.
  apply (completed_has_completedAt 3
           [CreateJob 0 "job-a" ["a.png"]; StartJob "job-a";
            UpdateImageStatus 1 "job-a" 0 "completed" Data.empty]
           "job-a"
           (Job.mk "job-a" "completed"
              [Image.mk "a.png" "completed" None None None] 0 (Some 1)
              (Progress.mk 1 1 0 0))); reflexivity.
Defined.

(** ** The registry sizes *)

Lemma queued_not_active_call q c :
  indexes_consistent q → queued_not_active q → fresh_id q c = true →
  queued_not_active (call c q).
Proof.
  intros (Hnd & Hqueue & Hactive) Hdisj Hc x.
  destruct c as [now id paths | id | now id i status data | id]; simpl.
  - simpl in Hc. destruct (jobs q !! id) eqn:Hjob; [done|].
    run_method. intros [Hx | ->%list_elem_of_singleton]%elem_of_app.
    + by apply Hdisj.
    + intros [? Hin]%Hactive. congruence.
  - run_method. destruct (jobs q !! id) as [job|] eqn:Hjob; simpl;
      [|apply Hdisj].
    intros Hx. rewrite elem_of_union, elem_of_singleton.
    intros [-> | Hin].
    + by apply splice_first_NoDup in Hx.
    + by apply splice_first_sub, Hdisj in Hx.
  - update_cases q id i job image Hjob Himg; [|apply Hdisj..].
    intros Hx Hin. apply (Hdisj x Hx).
    destruct (forallb terminal _); [|done].
    by apply elem_of_difference in Hin as [Hin _].
  - run_method. intros Hx%splice_first_sub [Hin _]%elem_of_difference.
    by apply (Hdisj x).
Qed.

Lemma queued_not_active_run cs q :
  indexes_consistent q → queued_not_active q → fresh_ids cs q = true →
  indexes_consistent (run cs q) ∧ queued_not_active (run cs q).
Proof.
  revert q. induction cs as [|c cs IH]; intros q Hinv Hdisj Hcs; [done|].
  simpl in Hcs. apply andb_true_iff in Hcs as [Hc Hcs].
  apply IH; [by apply indexes_consistent_call
            | by apply queued_not_active_call | done].
Qed.

(** X4. When [createJob] is never given the id of a registered job, no job
    is at once in the pending queue and in the active set, and the sizes
    that [getStats] reports satisfy
    [queuedJobs + activeJobs <= totalJobs]. *)
Theorem stats_within_total (maxConcurrent : Z) (cs : list Call) :
  fresh_ids cs (new maxConcurrent) = true →
  let q := run cs (new maxConcurrent) in
  let stats := eval getStats q in
  queued_not_active q
  ∧ Stats.queuedJobs stats + Stats.activeJobs stats ≤ Stats.totalJobs stats.
Proof.
  intros Hcs q stats.
  destruct (queued_not_active_run cs (new maxConcurrent))
    as [(Hnd & Hqueue & Hactive) Hdisj]; [apply indexes_consistent_new| |done|].
  { intros x Hx. by apply elem_of_nil in Hx. }
  split; [done|]. unfold stats. run_method. fold q.
  set (queued := list_to_set (queue q) : gset string).
  assert (Hsize : size queued = length (queue q)).
  { by apply size_list_to_set. }
  assert (Hdisjoint : queued ## activeJobs q).
  { intros x Hx%elem_of_list_to_set Hin. by apply (Hdisj x). }
  assert (Hsub : queued ∪ activeJobs q ⊆ dom (jobs q)).
  { intros x [Hx%elem_of_list_to_set | Hx]%elem_of_union;
      apply elem_of_dom; auto. }
  apply subseteq_size in Hsub.
  rewrite size_union, size_dom, Hsize in Hsub by done. lia.
Qed.

Lemma stats_within_total_witness :
  let q := run [CreateJob 0 "job-a" ["a.png"]; CreateJob 1 "job-b" [];
                StartJob "job-a"] (new 3) in
  let stats := eval getStats q in
  queued_not_active q
  ∧ Stats.queuedJobs stats + Stats.activeJobs stats ≤ Stats.totalJobs stats.
Proof.
  apply (stats_within_total 3
           [CreateJob 0 "job-a" ["a.png"]; CreateJob 1 "job-b" [];
            StartJob "job-a"]).
  reflexivity.
Defined.

(** X5. [startJob] never refuses a job: for a registered id that is not
    active, the number of active jobs grows by one and the job becomes
    processing, whatever [maxConcurrent] is and whatever [canStartNewJob]
    answers. *)
Theorem startJob_ignores_capacity (q : QueueManager) (jobId : string)
    (job : Job.t) :
  jobs q !! jobId = Some job →
  jobId ∉ activeJobs q →
  let q' := exec (startJob jobId) q in
  Stats.activeJobs (eval getStats q')
    = Stats.activeJobs (eval getStats q) + 1
  ∧ jobs q' !! jobId = Some (started job)
  ∧ maxConcurrent q' = maxConcurrent q.
Proof.
  intros Hjob Hactive. run_method. rewrite Hjob. simpl.
  split; [|split; [apply lookup_insert_eq | done]].
  rewrite size_union by by apply disjoint_singleton_l.
  rewrite size_singleton. lia.
Qed.

Lemma startJob_ignores_capacity_witness :
  let q := run [CreateJob 0 "job-a" []; CreateJob 1 "job-b" [];
                StartJob "job-a"] (new 1) in
  let q' := exec (startJob "job-b") q in
  eval canStartNewJob q = false
  ∧ Stats.activeJobs (eval getStats q')
      = Stats.activeJobs (eval getStats q) + 1
  ∧ jobs q' !! "job-b" = Some (started (eval (createJob 1 "job-b" []) q))
  ∧ maxConcurrent q' = maxConcurrent q.
Proof.
  split; [reflexivity|].
  apply (startJob_ignores_capacity
           (run [CreateJob 0 "job-a" []; CreateJob 1 "job-b" [];
                 StartJob "job-a"] (new 1)) "job-b"); [reflexivity|].
  vm_compute. intros Hin. discriminate Hin.
Defined.

(** ** The pending queue as a first-in first-out queue *)

Lemma splice_first_snoc x arr :
  x ∉ arr → splice_first x (arr ++ [x]) = arr.
Proof.
  induction arr as [|y rest IH]; simpl.
  - by rewrite String.eqb_refl.
  - rewrite not_elem_of_cons. intros [Hne Hrest].
    destruct (String.eqb_spec y x) as [->|_]; [done|]. by rewrite IH.
Qed.

(** X6. Starting the job that [getNextJob] returns takes exactly the head
    off the pending queue: when that id is registered, the queue becomes its
    tail, [getNextJob] then returns the former second entry, the job record
    changes in its status only, the id is active and the one notification is
    [jobStart]. *)
Theorem startJob_next_dequeues (q : QueueManager) (jobId : string)
    (job : Job.t) :
  eval getNextJob q = Some jobId →
  jobs q !! jobId = Some job →
  let q' := exec (startJob jobId) q in
  queue q = jobId :: queue q'
  ∧ eval getNextJob q' = head (tail (queue q))
  ∧ jobs q' !! jobId = Some (started job)
  ∧ jobId ∈ activeJobs q'
  ∧ emitted q' = (emitted q ++ [jobStart jobId])%list.
Proof.
  intros Hnext Hjob. run_method. rewrite Hjob. simpl.
  destruct (queue q) as [|first rest] eqn:Hqueue; [done|].
  injection Hnext as ->. simpl. rewrite String.eqb_refl.
  split; [done|]. split; [by destruct rest|].
  split; [apply lookup_insert_eq|]. split; [|done].
  apply elem_of_union_l, elem_of_singleton. reflexivity.
Qed.

Lemma startJob_next_dequeues_witness :
  let q := run [CreateJob 0 "job-a" ["a.png"]; CreateJob 1 "job-b" []]
               (new 3) in
  let q' := exec (startJob "job-a") q in
  queue q = "job-a" :: queue q'
  ∧ eval getNextJob q' = head (tail (queue q))
  ∧ jobs q' !! "job-a"
      = Some (started (eval (createJob 0 "job-a" ["a.png"]) (new 3)))
  ∧ "job-a" ∈ activeJobs q'
  ∧ emitted q' = (emitted q ++ [jobStart "job-a"])%list.
Proof.
  apply (startJob_next_dequeues
           (run [CreateJob 0 "job-a" ["a.png"]; CreateJob 1 "job-b" []]
                (new 3)) "job-a"); reflexivity.
Defined.

(** X7. Creating a job under an id that is in none of the three
    collections and removing it again leaves the tracker exactly as it
    was, notifications included. *)
Theorem createJob_removeJob_roundtrip (q : QueueManager) (now : Z)
    (jobId : string) (imagePaths : list string) :
  jobs q !! jobId = None →
  jobId ∉ activeJobs q →
  jobId ∉ queue q →
  exec (removeJob jobId) (exec (createJob now jobId imagePaths) q) = q.
Proof.
  intros Hjob Hactive Hqueue. run_method.
  rewrite delete_insert_eq, delete_id by done.
  rewrite splice_first_snoc by done.
  rewrite difference_disjoint_L by by apply disjoint_singleton_r.
  by destruct q.
Qed.

Lemma createJob_removeJob_roundtrip_witness :
  exec (removeJob "job-b")
       (exec (createJob 5 "job-b" ["c.png"]) two_images) = two_images.
Proof.
  apply createJob_removeJob_roundtrip.
  - reflexivity.
  - vm_compute. intros Hin. discriminate Hin.
  - intros Hin. apply list_elem_of_singleton in Hin. discriminate Hin.
Defined.

(** X8. [createJob] does not check the id. Given the id of a registered
    job it replaces the record by a fresh pending one and queues the id
    once more: [totalJobs] stays, [queuedJobs] grows by one; the id keeps
    its place in the active set, so a job that was active stays active
    with status pending. *)
Theorem createJob_registered_id (q : QueueManager) (now : Z)
    (jobId : string) (imagePaths : list string) (old : Job.t) :
  jobs q !! jobId = Some old →
  let q' := exec (createJob now jobId imagePaths) q in
  Stats.totalJobs (eval getStats q') = Stats.totalJobs (eval getStats q)
  ∧ Stats.queuedJobs (eval getStats q')
      = Stats.queuedJobs (eval getStats q) + 1
  ∧ activeJobs q' = activeJobs q
  ∧ Job.status <$> jobs q' !! jobId = Some "pending"
  ∧ Job.progress <$> jobs q' !! jobId
      = Some (Progress.mk (Z.of_nat (length imagePaths)) 0 0
                          (Z.of_nat (length imagePaths))).
Proof.
  intros Hold. run_method. rewrite lookup_insert_eq. simpl.
  rewrite map_size_insert_Some by by eexists.
  rewrite length_app. simpl. repeat split. lia.
Qed.

Lemma createJob_registered_id_witness :
  let q := run [CreateJob 0 "job-a" ["a.png"]; StartJob "job-a"] (new 3) in
  let q' := exec (createJob 1 "job-a" ["b.png"; "c.png"]) q in
  Stats.totalJobs (eval getStats q') = Stats.totalJobs (eval getStats q)
  ∧ Stats.queuedJobs (eval getStats q')
      = Stats.queuedJobs (eval getStats q) + 1
  ∧ activeJobs q' = activeJobs q
  ∧ Job.status <$> jobs q' !! "job-a" = Some "pending"
  ∧ Job.progress <$> jobs q' !! "job-a" = Some (Progress.mk 2 0 0 2).
Proof.
  apply (createJob_registered_id
           (run [CreateJob 0 "job-a" ["a.png"]; StartJob "job-a"] (new 3))
           1 "job-a" ["b.png"; "c.png"]
           (started (eval (createJob 0 "job-a" ["a.png"]) (new 3)))).
  reflexivity.
Defined.

(** ** Exactly one completion *)

Lemma resolved_after_update now i status data job image :
  at_index (Job.images job) i = Some image →
  resolved (job_after_update now i status data job image)
  = forallb terminal
      (Job.images (job_after_update now i status data job image)).
Proof.
  intros Himg. apply at_index_Some in Himg as [_ Hlook].
  apply lookup_lt_Some in Hlook. unfold resolved. simpl.
  destruct (<[_ := _]> (Job.images job)) eqn:Hins; [|done].
  apply (f_equal length) in Hins. rewrite length_insert in Hins.
  simpl in Hins. lia.
Qed.

Lemma not_resolved_with_open_image job i image :
  at_index (Job.images job) i = Some image →
  terminal image = false → resolved job = false.
Proof.
  intros Himg Hterm. apply at_index_Some in Himg as [_ Hlook].
  unfold resolved. destruct (Job.images job) as [|img rest] eqn:Himages;
    [done|].
  apply not_true_is_false. intros Hall. rewrite forallb_forall in Hall.
  apply list_elem_of_lookup_2, list_elem_of_In, Hall in Hlook. congruence.
Qed.

Section ExactlyOnce.
Variable jobId : string.
Variable before : nat.

Lemma completions_match_call q c :
  creates jobId c = false → in_lifecycle q c = true →
  completions_match jobId before q →
  completions_match jobId before (call c q).
Proof.
  intros Hc Hlife Hinv job'.
  destruct c as [now j paths | j | now j i status data | j]; simpl.
  - simpl in Hc. apply String.eqb_neq in Hc. run_method.
    rewrite lookup_insert_ne by done. apply Hinv.
  - run_method. destruct (jobs q !! j) as [job|] eqn:Hjob; simpl;
      [|apply Hinv].
    rewrite count_jobComplete_app. simpl.
    destruct (decide (j = jobId)) as [->|Hne].
    + rewrite lookup_insert_eq. intros [= <-].
      rewrite (Hinv _ Hjob). unfold resolved. simpl. lia.
    + rewrite lookup_insert_ne by done. intros Hjob'.
      rewrite (Hinv _ Hjob'). lia.
  - simpl in Hlife. apply andb_true_iff in Hlife as [_ Hlife].
    update_cases q j i job image Hjob Himg; [|apply Hinv..].
    rewrite !count_jobComplete_app.
    destruct (String.eqb_spec j jobId) as [->|Hne].
    + rewrite lookup_insert_eq. intros [= <-].
      rewrite resolved_after_update by done.
      apply negb_true_iff in Hlife.
      rewrite (Hinv _ Hjob), (not_resolved_with_open_image _ _ _ Himg Hlife).
      destruct (forallb terminal _); simpl; [|lia].
      rewrite String.eqb_refl. lia.
    + rewrite lookup_insert_ne by done. intros Hjob'.
      rewrite (Hinv _ Hjob').
      destruct (forallb terminal _); simpl; [|lia].
      apply String.eqb_neq in Hne. rewrite Hne. lia.
  - run_method. intros Hlook. apply lookup_delete_Some in Hlook as [_ Hlook].
    by apply Hinv.
Qed.

Lemma completions_match_run cs q :
  forallb (λ c, negb (creates jobId c)) cs = true →
  lifecycle cs q = true →
  completions_match jobId before q →
  completions_match jobId before (run cs q).
Proof.
  revert q. induction cs as [|c cs IH]; intros q Hcs Hlife Hinv; [done|].
  simpl in Hcs, Hlife.
  apply andb_true_iff in Hcs as [Hc Hcs].
  apply andb_true_iff in Hlife as [Hl Hlife].
  apply negb_true_iff in Hc.
  apply IH; [done | done | by apply completions_match_call].
Qed.

End ExactlyOnce.

(** X9. From its creation on, and until its id is given to [createJob]
    again, a job that is still registered has had [jobComplete] emitted
    exactly once if it has images and all of them are completed or failed,
    and not at all otherwise, provided the calls keep to the discipline of
    the processing loop. *)
Theorem jobComplete_exactly_once (q : QueueManager) (now : Z)
    (jobId : string) (imagePaths : list string) (cs : list Call)
    (job : Job.t) :
  let q0 := exec (createJob now jobId imagePaths) q in
  forallb (λ c, negb (creates jobId c)) cs = true →
  lifecycle cs q0 = true →
  jobs (run cs q0) !! jobId = Some job →
  count_jobComplete jobId (emitted (run cs q0))
  = (count_jobComplete jobId (emitted q)
     + (if resolved job then 1 else 0))%nat.
Proof.
  intros q0 Hcs Hlife Hjob.
  apply (completions_match_run jobId (count_jobComplete jobId (emitted q))
           cs q0); [done | done | | done].
  intros job0. unfold q0. run_method. rewrite lookup_insert_eq.
  intros [= <-]. unfold resolved. simpl.
  destruct imagePaths; simpl; lia.
Qed.

Lemma jobComplete_exactly_once_witness :
  count_jobComplete "job-a" (emitted completed_once)
  = (count_jobComplete "job-a" (emitted (new 3)) + 1)%nat.
Proof.
  apply (jobComplete_exactly_once (new 3) 0 "job-a" ["a.png"]
           [StartJob "job-a";
            UpdateImageStatus 1 "job-a" 0 "completed" Data.empty]
           (Job.mk "job-a" "completed"
              [Image.mk "a.png" "completed" None None None] 0 (Some 1)
              (Progress.mk 1 1 0 0))); reflexivity.
Defined.

(** * The processors *)

(** ** processImageWithRetry *)

Lemma retry_from_first_success processImage maxRetries k result :
  processImage k = Returns result → Result.success result = true →
  ∀ remaining attempt lastError waits,
    (attempt ≤ k < attempt + remaining)%nat →
    (∀ j, (attempt ≤ j < k)%nat → succeeded (processImage j) = false) →
    (retry_from processImage maxRetries remaining attempt lastError waits).1
    = result.
Proof.
  intros Hk Hsuccess. induction remaining as [|remaining IH];
    intros attempt lastError waits Hrange Hfail; [lia|].
  simpl. destruct (decide (attempt = k)) as [->|Hne].
  - by rewrite Hk, Hsuccess.
  - pose proof (Hfail attempt ltac:(lia)) as Hhere.
    destruct (processImage attempt) as [r|m]; simpl in Hhere.
    + rewrite Hhere. apply IH; [lia|]. intros j Hj. apply Hfail. lia.
    + apply IH; [lia|]. intros j Hj. apply Hfail. lia.
Qed.

Lemma retry_from_exhausted processImage maxRetries :
  ∀ remaining attempt lastError waits,
    (∀ j, (attempt ≤ j < attempt + remaining)%nat →
          succeeded (processImage j) = false) →
    (retry_from processImage maxRetries remaining attempt lastError waits).1
    = failed_after (match remaining with
                    | O => lastError
                    | S _ => last_error processImage (attempt + remaining)
                    end).
Proof.
  induction remaining as [|remaining IH];
    intros attempt lastError waits Hfail; [done|].
  simpl. pose proof (Hfail attempt ltac:(lia)) as Hhere.
  assert (Hrest : ∀ j, (S attempt ≤ j < S attempt + remaining)%nat →
                       succeeded (processImage j) = false).
  { intros j Hj. apply Hfail. lia. }
  replace (attempt + S remaining)%nat with (S attempt + remaining)%nat
    by lia.
  destruct (processImage attempt) as [r|m] eqn:Hattempt; simpl in Hhere.
  - rewrite Hhere, (IH _ _ _ Hrest).
    destruct remaining; [|done]. simpl.
    by rewrite Nat.add_0_r, Hattempt.
  - rewrite (IH _ _ _ Hrest).
    destruct remaining; [|done]. simpl.
    by rewrite Nat.add_0_r, Hattempt.
Qed.

(** X10. [processImageWithRetry] returns the result of the first attempt
    that succeeds, when there is one among the attempts [0 .. maxRetries];
    the attempts after it play no part. *)
Theorem retry_first_success (processImage : nat → Attempt) (maxRetries : Z)
    (k : nat) (result : Result.t) :
  Z.of_nat k ≤ maxRetries →
  (∀ j, (j < k)%nat → succeeded (processImage j) = false) →
  processImage k = Returns result →
  Result.success result = true →
  (processImageWithRetry processImage maxRetries).1 = result.
Proof.
  intros Hk Hfail Hattempt Hsuccess. unfold processImageWithRetry.
  apply (retry_from_first_success _ _ k); [done | done | lia |].
  intros j Hj. apply Hfail. lia.
Qed.

Lemma retry_first_success_witness :
  (processImageWithRetry second_attempt_succeeds 2).1
  = Result.mk true (Some "outputs/enhanced_a.png") (Some "done") None
              (Some "a.png").
Proof.
  apply (retry_first_success second_attempt_succeeds 2 1).
  - lia.
  - intros [|j] Hj; [reflexivity | lia].
  - reflexivity.
  - reflexivity.
Defined.

(** X11. When none of the attempts [0 .. maxRetries] succeeds,
    [processImageWithRetry] returns a failure whose error is that of the
    last attempt alone, or 'Failed after multiple retries' when the last
    attempt left none; the errors of the earlier attempts are dropped. With
    a negative [maxRetries] no attempt is made. *)
Theorem retry_exhausted (processImage : nat → Attempt) (maxRetries : Z) :
  (∀ j, Z.of_nat j ≤ maxRetries → succeeded (processImage j) = false) →
  (processImageWithRetry processImage maxRetries).1
  = failed_after (last_error processImage (Z.to_nat (maxRetries + 1))).
Proof.
  intros Hfail. unfold processImageWithRetry.
  rewrite retry_from_exhausted.
  - by destruct (Z.to_nat (maxRetries + 1)).
  - intros j Hj. apply Hfail. lia.
Qed.

Lemma retry_exhausted_witness :
  (processImageWithRetry no_attempt_succeeds 2).1
  = Result.mk false None None (Some "Failed after multiple retries") None.
Proof.
  change (Result.mk false None None (Some "Failed after multiple retries")
                    None)
    with (failed_after (last_error no_attempt_succeeds (Z.to_nat (2 + 1)))).
  apply (retry_exhausted no_attempt_succeeds 2).
  intros [|j] _; reflexivity.
Defined.

Lemma total_wait_snoc waits w : total_wait (waits ++ [w]) = total_wait waits + w.
Proof. unfold total_wait. induction waits; simpl; lia. Qed.

Lemma retry_from_waits_bound processImage maxRetries :
  ∀ remaining attempt lastError waits,
    Z.of_nat (attempt + remaining) = maxRetries + 1 →
    total_wait
      (retry_from processImage maxRetries remaining attempt lastError waits).2
    ≤ total_wait waits
      + Z.max 0 ((2 ^ maxRetries - 2 ^ Z.of_nat attempt) * 1000).
Proof.
  induction remaining as [|remaining IH];
    intros attempt lastError waits Hsum; simpl; [lia|].
  assert (Hpow : 2 ^ Z.of_nat (S attempt) = 2 * 2 ^ Z.of_nat attempt).
  { rewrite Nat2Z.inj_succ. apply Z.pow_succ_r. lia. }
  assert (Hpos : 0 < 2 ^ Z.of_nat attempt) by (apply Z.pow_pos_nonneg; lia).
  assert (Hnext : Z.of_nat (S attempt + remaining) = maxRetries + 1) by lia.
  destruct (processImage attempt) as [r|m].
  - destruct (Result.success r); simpl; [lia|].
    specialize (IH (S attempt) (Result.error r) waits Hnext). lia.
  - destruct (Z.ltb_spec (Z.of_nat attempt) maxRetries) as [Hlt|Hge].
    + specialize (IH (S attempt) m
                     (waits ++ [2 ^ Z.of_nat attempt * 1000])%list Hnext).
      rewrite total_wait_snoc in IH.
      assert (2 ^ Z.of_nat (S attempt) ≤ 2 ^ maxRetries)
        by (apply Z.pow_le_mono_r; lia).
      lia.
    + specialize (IH (S attempt) m waits Hnext). lia.
Qed.

(** X12. The waits of [processImageWithRetry] add up to at most
    [(2^maxRetries - 1) * 1000] milliseconds: three seconds for the default
    of two retries. *)
Theorem retry_total_wait_bound (processImage : nat → Attempt)
    (maxRetries : Z) :
  0 ≤ maxRetries →
  total_wait (processImageWithRetry processImage maxRetries).2
  ≤ (2 ^ maxRetries - 1) * 1000.
Proof.
  intros Hpos. unfold processImageWithRetry.
  pose proof (retry_from_waits_bound processImage maxRetries
                (Z.to_nat (maxRetries + 1)) 0 None []) as Hbound.
  specialize (Hbound ltac:(simpl; lia)).
  assert (0 < 2 ^ maxRetries) by (apply Z.pow_pos_nonneg; lia).
  change (2 ^ Z.of_nat 0) with 1 in Hbound.
  change (total_wait []) with 0 in Hbound. lia.
Qed.

Lemma retry_total_wait_bound_witness :
  total_wait (processImageWithRetry no_attempt_succeeds 2).2
  ≤ (2 ^ 2 - 1) * 1000.
Proof. apply retry_total_wait_bound. lia. Defined.

Lemma none_succeeded_refl processImage a :
  none_succeeded processImage a a = true.
Proof. unfold none_succeeded. by rewrite Nat.sub_diag. Qed.

Lemma none_succeeded_step processImage a j :
  (a < j)%nat →
  none_succeeded processImage a j
  = negb (succeeded (processImage a)) && none_succeeded processImage (S a) j.
Proof.
  intros Hlt. unfold none_succeeded.
  replace (j - a)%nat with (S (j - S a)) by lia. reflexivity.
Qed.

Lemma filter_reached_after_success processImage a r :
  succeeded (processImage a) = true →
  List.filter (reached_and_throws processImage a) (seq a r) = [].
Proof.
  intros Hsuccess.
  rewrite (filter_ext_in _ (λ _, false)); [by induction (seq a r)|].
  intros j [Hj _]%in_seq. unfold reached_and_throws.
  destruct (decide (j = a)) as [->|Hne].
  - destruct (processImage a); [done | discriminate].
  - rewrite none_succeeded_step, Hsuccess by lia. apply andb_false_r.
Qed.

Lemma filter_reached_after_failure processImage a r :
  succeeded (processImage a) = false →
  List.filter (reached_and_throws processImage a) (seq (S a) r)
  = List.filter (reached_and_throws processImage (S a)) (seq (S a) r).
Proof.
  intros Hfail. apply filter_ext_in. intros j [Hj _]%in_seq.
  unfold reached_and_throws.
  by rewrite none_succeeded_step, Hfail by lia.
Qed.

Lemma retry_from_waits processImage maxRetries :
  ∀ remaining attempt lastError waits,
    Z.of_nat (attempt + remaining) = maxRetries + 1 →
    (retry_from processImage maxRetries remaining attempt lastError waits).2
    = (waits
       ++ (backoff
             <$> List.filter (reached_and_throws processImage attempt)
                             (seq attempt (remaining - 1))))%list.
Proof.
  induction remaining as [|remaining IH];
    intros attempt lastError waits Hsum.
  { simpl. by rewrite app_nil_r. }
  cbn [retry_from]. replace (S remaining - 1)%nat with remaining by lia.
  assert (Hnext : Z.of_nat (S attempt + remaining) = maxRetries + 1) by lia.
  destruct (processImage attempt) as [r|m] eqn:Hattempt.
  - destruct (Result.success r) eqn:Hsuccess.
    + rewrite filter_reached_after_success by by rewrite Hattempt.
      simpl. by rewrite app_nil_r.
    + rewrite (IH _ _ _ Hnext). f_equal. f_equal.
      destruct remaining as [|remaining]; [done|].
      replace (S remaining - 1)%nat with remaining by lia.
      cbn [seq List.filter]. unfold reached_and_throws at 2.
      rewrite Hattempt. cbn [throws andb].
      symmetry. apply filter_reached_after_failure.
      by rewrite Hattempt.
  - destruct remaining as [|remaining].
    + destruct (Z.ltb_spec (Z.of_nat attempt) maxRetries); [lia|].
      simpl. by rewrite app_nil_r.
    + destruct (Z.ltb_spec (Z.of_nat attempt) maxRetries); [|lia].
      rewrite (IH _ _ _ Hnext), <- app_assoc. f_equal.
      replace (S remaining - 1)%nat with remaining by lia.
      cbn [seq List.filter]. unfold reached_and_throws at 2.
      rewrite Hattempt, none_succeeded_refl. cbn [throws andb].
      rewrite fmap_cons. simpl. f_equal. f_equal.
      symmetry. apply filter_reached_after_failure.
      by rewrite Hattempt.
Qed.

(** X13. [processImageWithRetry] waits after an attempt exactly when that
    attempt is made, throws and is not the last one ([maxRetries]), and
    then for [2^attempt] seconds: its [setTimeout]s are, in order, those
    of the attempts [j < maxRetries] that are reached (no earlier attempt
    succeeded) and throw. After an attempt that returns a failure, which
    is how [processImage] fails since it catches its own errors, the next
    attempt follows at once. *)
Theorem retry_waits_exactly (processImage : nat → Attempt) (maxRetries : Z) :
  (processImageWithRetry processImage maxRetries).2
  = backoff
      <$> List.filter (reached_and_throws processImage 0)
                      (seq 0 (Z.to_nat maxRetries)).
Proof.
  unfold processImageWithRetry.
  destruct (Z_lt_le_dec maxRetries 0) as [Hneg | Hpos].
  - replace (Z.to_nat (maxRetries + 1)) with 0%nat by lia.
    by replace (Z.to_nat maxRetries) with 0%nat by lia.
  - rewrite retry_from_waits by lia.
    by replace (Z.to_nat (maxRetries + 1) - 1)%nat
      with (Z.to_nat maxRetries) by lia.
Qed.

(** Two runs of the loop with two retries: a wait of one second after the
    first attempt, which throws; and no wait after a first attempt that
    returns a failure, two seconds after the second attempt, which throws,
    none after the third, which is the last. *)
Example retry_waits_samples :
  (processImageWithRetry second_attempt_succeeds 2).2 = [1000]
  ∧ (processImageWithRetry no_attempt_succeeds 2).2 = [2000].
Proof. split; reflexivity. Qed.

(** * processJob *)

Lemma exec_bind {A B} (m : M A) (k : A → M B) q :
  exec (bind m k) q = exec (k (eval m q)) (exec m q).
Proof. unfold exec, eval, bind. by destruct (m q). Qed.

Lemma at_index_nat {A} (arr : list A) (i : nat) :
  at_index arr (Z.of_nat i) = arr !! i.
Proof.
  unfold at_index. rewrite Nat2Z.id. case_decide; [done | lia].
Qed.

Lemma insert_middle {A} (l1 l2 : list A) x y :
  <[length l1 := y]> (l1 ++ x :: l2)%list = (l1 ++ y :: l2)%list.
Proof. induction l1 as [|z l1 IH]; simpl; [done | by rewrite IH]. Qed.

Lemma forallb_terminal_new paths :
  forallb terminal (new_image <$> paths)
  = match paths with [] => true | _ => false end.
Proof. by destruct paths. Qed.

Lemma update_progress_twice status p :
  status = "completed" ∨ status = "failed" →
  update_progress "processing" status (update_progress "pending" "processing" p)
  = update_progress "pending" status p.
Proof. by intros [-> | ->]. Qed.

Lemma reported_terminal answer :
  (reported answer).1 = "completed" ∨ (reported answer).1 = "failed".
Proof.
  destruct answer as [r|m]; simpl; [|by right].
  destruct (Result.success r); [by left | by right].
Qed.

Lemma report_reported now jobId i answer :
  report now jobId i answer
  = updateImageStatus now jobId (Z.of_nat i) (reported answer).1
                      (reported answer).2.
Proof.
  destruct answer as [r|m]; simpl; [|done]. by destruct (Result.success r).
Qed.

Lemma processed_image_terminal creation answers i p :
  terminal (processed_image creation answers i p) = true.
Proof.
  apply terminal_spec. unfold processed_image.
  destruct creation; rewrite update_image_status; [by right|].
  apply reported_terminal.
Qed.

Lemma tally_terminal images t c f pd :
  forallb terminal images = true →
  tally images (Progress.mk t c f pd)
  = Progress.mk t (c + count_status "completed" images)
                (f + count_status "failed" images)
                (pd - Z.of_nat (length images)).
Proof.
  revert c f pd. induction images as [|img rest IH]; intros c f pd Hall.
  - simpl. f_equal; lia.
  - simpl in Hall. apply andb_true_iff in Hall as [Himg Hrest].
    change (tally (img :: rest) (Progress.mk t c f pd))
      with (tally rest (update_progress "pending" (Image.status img)
                                        (Progress.mk t c f pd))).
    apply terminal_spec in Himg.
    cbn [count_status length]. rewrite Nat2Z.inj_succ.
    destruct Himg as [Hst | Hst]; rewrite Hst.
    + change (update_progress "pending" "completed" (Progress.mk t c f pd))
        with (Progress.mk t (c + 1) f (pd - 1)).
      rewrite (IH _ _ _ Hrest). simpl. f_equal; lia.
    + change (update_progress "pending" "failed" (Progress.mk t c f pd))
        with (Progress.mk t c (f + 1) (pd - 1)).
      rewrite (IH _ _ _ Hrest). simpl. f_equal; lia.
Qed.

Lemma count_terminal images :
  forallb terminal images = true →
  count_status "completed" images + count_status "failed" images
  = Z.of_nat (length images).
Proof.
  induction images as [|img rest IH]; intros Hall; [done|].
  simpl in Hall. apply andb_true_iff in Hall as [Himg Hrest].
  apply terminal_spec in Himg. cbn [count_status length].
  rewrite Nat2Z.inj_succ. specialize (IH Hrest).
  destruct Himg as [-> | ->]; simpl; lia.
Qed.

(** ** The loop over the images *)

Section ImageLoop.
Variable jobId : string.
Variable body : nat → M unit.
Variable final : nat → string → Image.t.
Hypothesis final_terminal : ∀ i p, terminal (final i p) = true.
Hypothesis body_step :
  ∀ i q job done p rest,
    jobs q !! jobId = Some job →
    Job.images job = (done ++ new_image p :: rest)%list →
    length done = i →
    ∃ now extra,
      exec (body i) q
      = after_image jobId now extra (done ++ final i p :: rest)%list
                    (Image.status (final i p)) job q
      ∧ count_jobComplete jobId extra
        = if forallb terminal (done ++ final i p :: rest)%list
          then 1%nat else 0%nat.

Lemma for_each_images paths :
  ∀ done q job,
    jobs q !! jobId = Some job →
    Job.images job = (done ++ (new_image <$> paths))%list →
    forallb terminal done = true →
    let q' := exec (for_each body (length paths) (length done)) q in
    ∃ job',
      jobs q' !! jobId = Some job'
      ∧ Job.images job'
        = (done ++ imap (λ k, final (length done + k)) paths)%list
      ∧ Job.progress job'
        = tally (imap (λ k, final (length done + k)) paths)
                (Job.progress job)
      ∧ (∀ other, other ≠ jobId → jobs q' !! other = jobs q !! other)
      ∧ (paths ≠ [] →
         Job.status job' = "completed"
         ∧ is_Some (Job.completedAt job')
         ∧ (jobId ∉ activeJobs q')
         ∧ count_jobComplete jobId (emitted q')
           = S (count_jobComplete jobId (emitted q))).
Proof.
  induction paths as [|p paths IH]; intros done q job Hjob Himages Hdone q'.
  { exists job. simpl in Himages. rewrite app_nil_r in *. by simpl. }
  subst q'. cbn [length for_each]. rewrite exec_bind.
  rewrite fmap_cons in Himages.
  destruct (body_step (length done) q job done p
              (new_image <$> paths : list Image.t)
              Hjob Himages eq_refl) as (now & extra & Hstep & Hcount).
  set (q1 := exec (body (length done)) q) in *.
  set (images1 := (done ++ final (length done) p :: (new_image <$> paths))%list)
    in *.
  assert (Hall : forallb terminal images1
                 = match paths with [] => true | _ => false end).
  { unfold images1. rewrite forallb_app, Hdone. simpl.
    by rewrite final_terminal, forallb_terminal_new. }
  assert (Hjob1 : ∃ job1, jobs q1 !! jobId = Some job1
            ∧ Job.images job1 = images1
            ∧ Job.progress job1
              = update_progress "pending"
                  (Image.status (final (length done) p)) (Job.progress job)).
  { rewrite Hstep. eexists. split; [apply lookup_insert_eq | done]. }
  destruct Hjob1 as (job1 & Hjob1 & Himages1 & Hprogress1).
  assert (Hother1 : ∀ other, other ≠ jobId →
            jobs q1 !! other = jobs q !! other).
  { intros other Hne. rewrite Hstep. simpl. by apply lookup_insert_ne. }
  destruct (IH (done ++ [final (length done) p])%list q1 job1 Hjob1)
    as (job' & Hjob' & Himages' & Hprogress' & Hother' & Hcompleted').
  { rewrite Himages1. unfold images1. by rewrite <- app_assoc. }
  { rewrite forallb_app, Hdone. simpl. by rewrite final_terminal. }
  rewrite length_app in Hjob', Himages', Hprogress', Hother', Hcompleted'.
  simpl in Hjob', Himages', Hprogress', Hother', Hcompleted'.
  replace (length done + 1)%nat with (S (length done)) in * by lia.
  assert (Himap : imap (λ k, final (length done + k)) (p :: paths)
                  = final (length done) p
                    :: imap (λ k, final (S (length done) + k)) paths).
  { simpl. rewrite Nat.add_0_r. f_equal. apply imap_ext.
    intros k x _. simpl. f_equal. lia. }
  exists job'. split; [done|]. rewrite Himap.
  split; [by rewrite Himages', <- app_assoc|].
  split; [by rewrite Hprogress', Hprogress1|].
  split; [intros other Hne; by rewrite Hother', Hother1|].
  intros _. destruct paths as [|p2 paths].
  - change (exec (for_each body (length []) (S (length done))) q1) with q1
      in *.
    rewrite Hjob1 in Hjob'. injection Hjob' as <-.
    revert Hjob1. rewrite Hstep. unfold after_image. fold images1.
    rewrite Hall. simpl. rewrite lookup_insert_eq. intros [= <-]. simpl.
    split; [done|]. split; [by eexists|]. split.
    + rewrite elem_of_difference, elem_of_singleton. tauto.
    + rewrite count_jobComplete_app, Hcount. fold images1. rewrite Hall. lia.
  - destruct Hcompleted' as (Hst & Hat & Hact & Hcnt); [done|].
    split; [done|]. split; [done|]. split; [done|].
    rewrite Hcnt. f_equal. rewrite Hstep. unfold after_image. simpl.
    rewrite count_jobComplete_app, Hcount. fold images1. rewrite Hall. lia.
Qed.

End ImageLoop.

(** ** The two loop bodies *)

Lemma lookup_middle_image (done rest : list Image.t) img i :
  length done = i →
  at_index (done ++ img :: rest)%list (Z.of_nat i) = Some img.
Proof. intros <-. rewrite at_index_nat. by apply list_lookup_middle. Qed.

Lemma job_after_update_middle now i status data job done img rest :
  Job.images job = (done ++ img :: rest)%list → length done = i →
  Job.images (job_after_update now (Z.of_nat i) status data job img)
  = (done ++ update_image status data img :: rest)%list.
Proof.
  intros Himages <-. simpl. rewrite Nat2Z.id, Himages.
  apply insert_middle.
Qed.

Lemma step_failed clock jobId message answers i q job done p rest :
  jobs q !! jobId = Some job →
  Job.images job = (done ++ new_image p :: rest)%list →
  length done = i →
  ∃ now extra,
    exec (updateImageStatus (clock i) jobId (Z.of_nat i) "failed"
            (Data.mk None (Some ("Server error: " ++ message)) None)) q
    = after_image jobId now extra
        (done ++ processed_image (Some message) answers i p
              :: rest)%list
        (Image.status
           (processed_image (Some message) answers i p)) job q
    ∧ count_jobComplete jobId extra
      = if forallb terminal
             (done ++ processed_image (Some message) answers i p
                   :: rest)%list
        then 1%nat else 0%nat.
Proof.
  intros Hjob Himages Hlen.
  pose proof (lookup_middle_image done rest (new_image p) i Hlen) as Himg.
  rewrite <- Himages in Himg.
  rewrite (updateImageStatus_valid _ _ _ _ _ _ _ _ Hjob Himg).
  pose proof (job_after_update_middle (clock i) i "failed"
                (Data.mk None (Some ("Server error: " ++ message)) None)
                job done (new_image p) rest Himages Hlen) as Himages'.
  unfold processed_image. rewrite update_image_status.
  rewrite Himages'. unfold after_image, job_after_update.
  simpl in Himages'. rewrite Himages'.
  exists (clock i). eexists. split; [reflexivity|].
  destruct (forallb terminal _); simpl; [|done].
  by rewrite String.eqb_refl.
Qed.

Lemma step_processed clock jobId answers i q job done p rest :
  jobs q !! jobId = Some job →
  Job.images job = (done ++ new_image p :: rest)%list →
  length done = i →
  ∃ now extra,
    exec (updateImageStatus (clock (2 * i)%nat) jobId (Z.of_nat i)
            "processing" Data.empty ;;
          report (clock (2 * i + 1)%nat) jobId i (answers i)) q
    = after_image jobId now extra
        (done ++ processed_image None answers i p :: rest)%list
        (Image.status (processed_image None answers i p)) job q
    ∧ count_jobComplete jobId extra
      = if forallb terminal
             (done ++ processed_image None answers i p :: rest)%list
        then 1%nat else 0%nat.
Proof.
  intros Hjob Himages <-.
  pose proof (lookup_middle_image done rest (new_image p) _ eq_refl) as Himg.
  rewrite <- Himages in Himg.
  rewrite exec_bind, report_reported.
  rewrite (updateImageStatus_valid _ _ _ _ _ _ _ _ Hjob Himg).
  set (image1 := update_image "processing" Data.empty (new_image p)).
  assert (Hopen : forallb terminal (done ++ image1 :: rest)%list = false).
  { rewrite forallb_app. simpl. apply andb_false_r. }
  assert (Hjob1 :
    job_after_update (clock (2 * length done)%nat) (Z.of_nat (length done))
      "processing" Data.empty job (new_image p)
    = Job.mk (Job.jobId job) (Job.status job) (done ++ image1 :: rest)%list
             (Job.createdAt job) (Job.completedAt job)
             (update_progress "pending" "processing" (Job.progress job))).
  { unfold job_after_update. rewrite Nat2Z.id, Himages, insert_middle.
    fold image1. by rewrite Hopen. }
  rewrite Hjob1. cbn [Job.images]. rewrite Hopen.
  set (job1 := Job.mk _ _ _ _ _ _).
  set (q1 := mkQueueManager _ _ _ _ _).
  assert (Hjob1' : jobs q1 !! jobId = Some job1) by apply lookup_insert_eq.
  pose proof (lookup_middle_image done rest image1 _ eq_refl) as Himg1.
  rewrite (updateImageStatus_valid _ _ _ _ _ _ _ _ Hjob1' Himg1).
  unfold job_after_update, after_image, processed_image, q1, job1.
  cbn [Job.images Job.jobId Job.status Job.createdAt Job.completedAt
       Job.progress maxConcurrent jobs activeJobs queue emitted].
  rewrite Nat2Z.id, insert_middle, insert_insert_eq, !update_image_status.
  fold image1.
  change (Image.status image1) with "processing".
  rewrite update_progress_twice by apply reported_terminal.
  exists (clock (2 * length done + 1)%nat). eexists. split.
  - rewrite <- app_assoc. reflexivity.
  - rewrite !count_jobComplete_app. simpl.
    case_match; simpl; [|done]. by rewrite String.eqb_refl.
Qed.

(** ** A freshly created job, processed *)

Lemma processJob_fresh q now0 jobId paths clock creation answers :
  let q0 := exec (createJob now0 jobId paths) q in
  let q' := exec (processJob clock jobId creation answers) q0 in
  let N := Z.of_nat (length paths) in
  ∃ job,
    jobs q' !! jobId = Some job
    ∧ Job.images job = imap (processed_image creation answers) paths
    ∧ Job.progress job
      = tally (imap (processed_image creation answers) paths)
              (Progress.mk N 0 0 N)
    ∧ (∀ other, other ≠ jobId → jobs q' !! other = jobs q !! other)
    ∧ (paths ≠ [] →
       Job.status job = "completed"
       ∧ is_Some (Job.completedAt job)
       ∧ (jobId ∉ activeJobs q')
       ∧ count_jobComplete jobId (emitted q')
         = S (count_jobComplete jobId (emitted q))).
Proof.
  intros q0 q' N.
  set (job0 := eval (createJob now0 jobId paths) q).
  assert (Hjob0 : jobs q0 !! jobId = Some job0).
  { unfold q0, job0. run_method. apply lookup_insert_eq. }
  set (q1 := exec (startJob jobId) q0).
  assert (Hjob1 : jobs q1 !! jobId = Some (started job0)).
  { unfold q1. run_method. rewrite Hjob0. simpl. apply lookup_insert_eq. }
  assert (Hother1 : ∀ other, other ≠ jobId →
            jobs q1 !! other = jobs q !! other).
  { intros other Hne. unfold q1, q0. run_method. rewrite lookup_insert_eq.
    simpl. by rewrite !lookup_insert_ne. }
  assert (Hcount1 : count_jobComplete jobId (emitted q1)
                    = count_jobComplete jobId (emitted q)).
  { unfold q1, q0. run_method. rewrite lookup_insert_eq. simpl.
    rewrite count_jobComplete_app. simpl. lia. }
  assert (Hq' : q' = exec (match creation with
      | None =>
          for_each
            (λ i, updateImageStatus (clock (2 * i)%nat) jobId (Z.of_nat i)
                    "processing" Data.empty ;;
                  report (clock (2 * i + 1)%nat) jobId i (answers i))
            (length paths) (length (@nil Image.t))
      | Some message =>
          for_each
            (λ i, updateImageStatus (clock i) jobId (Z.of_nat i) "failed"
                    (Data.mk None (Some ("Server error: " ++ message)) None))
            (length paths) (length (@nil Image.t))
      end) q1).
  { unfold q', processJob. rewrite exec_bind.
    change (eval (getJob jobId) q0) with (jobs q0 !! jobId).
    change (exec (getJob jobId) q0) with q0. rewrite Hjob0.
    rewrite exec_bind. fold q1.
    change (length (Job.images job0)) with (length (new_image <$> paths)).
    by rewrite length_fmap. }
  assert (Himages1 : Job.images (started job0)
                     = ([] ++ (new_image <$> paths))%list) by done.
  destruct creation as [message|].
  - destruct (for_each_images jobId
                (λ i, updateImageStatus (clock i) jobId (Z.of_nat i) "failed"
                        (Data.mk None (Some ("Server error: " ++ message))
                                 None))
                (processed_image (Some message) answers)
                (processed_image_terminal (Some message) answers)
                (step_failed clock jobId message answers)
                paths [] q1 (started job0) Hjob1 Himages1 eq_refl)
      as (job & Hjob & Himages & Hprogress & Hother & Hcompleted).
    rewrite <- Hq' in *. exists job. repeat split; try done.
    + intros other Hne. by rewrite Hother, Hother1.
    + by apply Hcompleted.
    + by apply Hcompleted.
    + by apply Hcompleted.
    + rewrite <- Hcount1. by apply Hcompleted.
  - destruct (for_each_images jobId
                (λ i, updateImageStatus (clock (2 * i)%nat) jobId
                        (Z.of_nat i) "processing" Data.empty ;;
                      report (clock (2 * i + 1)%nat) jobId i (answers i))
                (processed_image None answers)
                (processed_image_terminal None answers)
                (step_processed clock jobId answers)
                paths [] q1 (started job0) Hjob1 Himages1 eq_refl)
      as (job & Hjob & Himages & Hprogress & Hother & Hcompleted).
    rewrite <- Hq' in *. exists job. repeat split; try done.
    + intros other Hne. by rewrite Hother, Hother1.
    + by apply Hcompleted.
    + by apply Hcompleted.
    + by apply Hcompleted.
    + rewrite <- Hcount1. by apply Hcompleted.
Qed.

Lemma forallb_processed creation answers paths :
  forallb terminal (imap (processed_image creation answers) paths) = true.
Proof.
  apply forallb_forall. intros img Hin.
  apply list_elem_of_In, list_elem_of_lookup in Hin as [i Hi].
  rewrite list_lookup_imap in Hi.
  destruct (paths !! i) as [p|]; [|done]. injection Hi as <-.
  apply processed_image_terminal.
Qed.

(** X14. [processJob] for an id that is not registered makes no call that
    changes the tracker: no job is started and nothing is emitted. *)
Theorem processJob_unknown_job (clock : nat → Z) (jobId : string)
    (creation : option string) (answers : nat → Attempt)
    (q : QueueManager) :
  jobs q !! jobId = None →
  processJob clock jobId creation answers q = (tt, q).
Proof. intros Hjob. unfold processJob. run_method. by rewrite Hjob. Qed.

Lemma processJob_unknown_job_witness :
  processJob (λ k, Z.of_nat k) "job-z" None second_attempt_succeeds two_images
  = (tt, two_images).
Proof. apply processJob_unknown_job. reflexivity. Defined.

(** X15. A job created with at least one path and then handled by
    [processJob], with no other call in between, ends completed whatever
    the processor answers and also when the processor cannot be created:
    [completedAt] is set, every image is completed or failed, [pending] is
    0 and [completed + failed = total], the job is no longer active, and
    [jobComplete] has been emitted for it exactly once. *)
Theorem processJob_completes (q : QueueManager) (now0 : Z) (jobId : string)
    (paths : list string) (clock : nat → Z) (creation : option string)
    (answers : nat → Attempt) :
  paths ≠ [] →
  let q0 := exec (createJob now0 jobId paths) q in
  let q' := exec (processJob clock jobId creation answers) q0 in
  ∃ job,
    jobs q' !! jobId = Some job
    ∧ Job.status job = "completed"
    ∧ is_Some (Job.completedAt job)
    ∧ all_terminal (Job.images job)
    ∧ Progress.pending (Job.progress job) = 0
    ∧ Progress.completed (Job.progress job)
      + Progress.failed (Job.progress job)
      = Progress.total (Job.progress job)
    ∧ Progress.total (Job.progress job) = Z.of_nat (length paths)
    ∧ (jobId ∉ activeJobs q')
    ∧ count_jobComplete jobId (emitted q')
      = S (count_jobComplete jobId (emitted q)).
Proof.
  intros Hpaths q0 q'.
  destruct (processJob_fresh q now0 jobId paths clock creation answers)
    as (job & Hjob & Himages & Hprogress & _ & Hcompleted).
  destruct (Hcompleted Hpaths) as (Hstatus & Hat & Hactive & Hcount).
  pose proof (forallb_processed creation answers paths) as Hall.
  rewrite (tally_terminal _ _ _ _ _ Hall), length_imap in Hprogress.
  pose proof (count_terminal _ Hall) as Hsum. rewrite length_imap in Hsum.
  exists job. rewrite Hprogress, Himages. simpl.
  repeat split; try done; try lia.
  by apply forallb_terminal.
Qed.

Lemma processJob_completes_witness :
  let q0 := exec (createJob 0 "job-a" ["a.png"; "b.png"]) (new 3) in
  let q' := exec (processJob (λ k, Z.of_nat k) "job-a" None
                             no_attempt_succeeds) q0 in
  ∃ job,
    jobs q' !! "job-a" = Some job
    ∧ Job.status job = "completed"
    ∧ is_Some (Job.completedAt job)
    ∧ all_terminal (Job.images job)
    ∧ Progress.pending (Job.progress job) = 0
    ∧ Progress.completed (Job.progress job)
      + Progress.failed (Job.progress job)
      = Progress.total (Job.progress job)
    ∧ Progress.total (Job.progress job) = Z.of_nat 2
    ∧ ("job-a" ∉ activeJobs q')
    ∧ count_jobComplete "job-a" (emitted q')
      = S (count_jobComplete "job-a" (emitted (new 3))).
Proof.
  apply (processJob_completes (new 3) 0 "job-a" ["a.png"; "b.png"]).
  discriminate.
Defined.

Lemma processed_image_path creation answers i p :
  Image.path (processed_image creation answers i p) = p.
Proof.
  unfold processed_image.
  destruct creation; by rewrite !update_image_path.
Qed.

Lemma processed_image_status creation answers i p :
  Image.status (processed_image creation answers i p)
  = match creation with
    | Some _ => "failed"
    | None => if succeeded (answers i) then "completed" else "failed"
    end.
Proof.
  unfold processed_image. destruct creation; rewrite update_image_status;
    [done|].
  destruct (answers i) as [r|m]; simpl; [|done].
  by destruct (Result.success r).
Qed.

Lemma processed_image_outputPath answers i p :
  Image.outputPath (processed_image None answers i p)
  = output_of (answers i).
Proof.
  unfold processed_image, output_of.
  destruct (answers i) as [[success op an er orig]|m]; simpl.
  - destruct success; simpl; unfold update_image; simpl.
    + destruct (truthy op), (truthy an); reflexivity.
    + destruct (truthy er); reflexivity.
  - unfold update_image. simpl. destruct (truthy m); reflexivity.
Qed.

Lemma output_of_succeeded a :
  truthy (output_of a) = true → succeeded a = true.
Proof.
  destruct a as [r|m]; simpl; [|done].
  by destruct (Result.success r).
Qed.

Lemma truthy_output_of a : truthy (output_of a) = true ∨ output_of a = None.
Proof.
  destruct a as [r|m]; simpl; [|by right].
  destruct (Result.success r), (truthy (Result.outputPath r)) eqn:Hop;
    simpl; auto.
Qed.

(** Whether [createJobZip] takes the image. *)
Lemma processed_image_zipped creation answers i p :
  String.eqb (Image.status (processed_image creation answers i p))
             "completed"
  && truthy (Image.outputPath (processed_image creation answers i p))
  = match creation with
    | Some _ => false
    | None => truthy (output_of (answers i))
    end.
Proof.
  rewrite processed_image_status. destruct creation; [done|].
  rewrite processed_image_outputPath.
  destruct (truthy_output_of (answers i)) as [Hout | Hout].
  - by rewrite Hout, (output_of_succeeded _ Hout).
  - rewrite Hout. apply andb_false_r.
Qed.

(** X16. After [createJob] and [processJob], image [i] of the job still
    has the path it was created with; it is completed exactly when the
    processor was created and its answer for the image was a success, and
    failed otherwise. A completed image holds the output path of the
    answer, if the answer has one; when the processor could not be
    created, the error of every image is 'Server error: ' followed by the
    message. *)
Theorem processJob_outcomes (q : QueueManager) (now0 : Z) (jobId : string)
    (paths : list string) (clock : nat → Z) (creation : option string)
    (answers : nat → Attempt) (i : nat) (p : string) :
  paths !! i = Some p →
  let q0 := exec (createJob now0 jobId paths) q in
  let q' := exec (processJob clock jobId creation answers) q0 in
  ∃ job img,
    jobs q' !! jobId = Some job
    ∧ length (Job.images job) = length paths
    ∧ Job.images job !! i = Some img
    ∧ Image.path img = p
    ∧ match creation with
      | Some message =>
          Image.status img = "failed"
          ∧ Image.error img = Some ("Server error: " ++ message)
      | None =>
          Image.status img
          = (if succeeded (answers i) then "completed" else "failed")
          ∧ Image.outputPath img = output_of (answers i)
      end.
Proof.
  intros Hp q0 q'.
  destruct (processJob_fresh q now0 jobId paths clock creation answers)
    as (job & Hjob & Himages & _).
  exists job, (processed_image creation answers i p).
  split; [done|]. rewrite Himages, length_imap, list_lookup_imap, Hp.
  split; [done|]. split; [done|].
  split; [apply processed_image_path|].
  pose proof (processed_image_status creation answers i p) as Hstatus.
  destruct creation as [message|].
  - split; [done|]. reflexivity.
  - split; [done|]. apply processed_image_outputPath.
Qed.

Lemma processJob_outcomes_witness :
  let q0 := exec (createJob 0 "job-a" ["a.png"; "b.png"]) (new 3) in
  let q' := exec (processJob (λ k, Z.of_nat k) "job-a" None
                             second_attempt_succeeds) q0 in
  ∃ job img,
    jobs q' !! "job-a" = Some job
    ∧ length (Job.images job) = 2%nat
    ∧ Job.images job !! 1%nat = Some img
    ∧ Image.path img = "b.png"
    ∧ Image.status img = "completed"
    ∧ Image.outputPath img = Some "outputs/enhanced_a.png".
Proof.
  apply (processJob_outcomes (new 3) 0 "job-a" ["a.png"; "b.png"]
           (λ k, Z.of_nat k) None second_attempt_succeeds 1 "b.png").
  reflexivity.
Defined.

(** ** Retries behind processJob *)

Lemma retry_from_success_iff processImage maxRetries :
  ∀ remaining attempt lastError waits,
    Result.success
      (retry_from processImage maxRetries remaining attempt lastError
                  waits).1 = true
    ↔ ∃ j, (attempt ≤ j < attempt + remaining)%nat
           ∧ succeeded (processImage j) = true.
Proof.
  induction remaining as [|remaining IH]; intros attempt lastError waits.
  - simpl. split; [done|]. intros (j & Hj & _). lia.
  - simpl. destruct (processImage attempt) as [r|m] eqn:Hattempt.
    + destruct (Result.success r) eqn:Hsuccess.
      * simpl. rewrite Hsuccess. split; [|done]. intros _.
        exists attempt. rewrite Hattempt. split; [lia | done].
      * rewrite IH. split; intros (j & Hj & Hs).
        -- exists j. split; [lia | done].
        -- exists j. split; [|done].
           destruct (decide (j = attempt)) as [->|]; [|lia].
           rewrite Hattempt in Hs. simpl in Hs. congruence.
    + rewrite IH. split; intros (j & Hj & Hs).
      * exists j. split; [lia | done].
      * exists j. split; [|done].
        destruct (decide (j = attempt)) as [->|]; [|lia].
        rewrite Hattempt in Hs. discriminate Hs.
Qed.

(** X17. With [processJob] running each image through
    [processImageWithRetry], an image of the job ends completed exactly
    when one of its attempts [0 .. maxRetries] succeeded, and failed
    otherwise. *)
Theorem processJob_with_retries (q : QueueManager) (now0 : Z)
    (jobId : string) (paths : list string) (clock : nat → Z)
    (attempts : nat → nat → Attempt) (maxRetries : Z) (i : nat) (p : string) :
  paths !! i = Some p →
  let answers i := Returns (processImageWithRetry (attempts i) maxRetries).1 in
  let q0 := exec (createJob now0 jobId paths) q in
  let q' := exec (processJob clock jobId None answers) q0 in
  ∃ job img,
    jobs q' !! jobId = Some job
    ∧ Job.images job !! i = Some img
    ∧ (Image.status img = "completed" ∨ Image.status img = "failed")
    ∧ (Image.status img = "completed"
       ↔ ∃ k, Z.of_nat k ≤ maxRetries ∧ succeeded (attempts i k) = true).
Proof.
  intros Hp answers q0 q'.
  destruct (processJob_fresh q now0 jobId paths clock None answers)
    as (job & Hjob & Himages & _).
  exists job, (processed_image None answers i p).
  split; [done|]. rewrite Himages, list_lookup_imap, Hp.
  split; [done|]. rewrite processed_image_status.
  unfold answers at 1 2 3. simpl. unfold processImageWithRetry.
  pose proof (retry_from_success_iff (attempts i) maxRetries
                (Z.to_nat (maxRetries + 1)) 0 None []) as Hiff.
  destruct (Result.success _) eqn:Hsuccess.
  - split; [by left|]. split; [intros _ | done].
    destruct (proj1 Hiff eq_refl) as (k & Hk & Hs).
    exists k. split; [lia | done].
  - split; [by right|]. split; [discriminate|].
    intros (k & Hk & Hs). enough (false = true) by done.
    apply Hiff. exists k. split; [lia | done].
Qed.

Lemma processJob_with_retries_witness :
  let answers (i : nat) :=
    Returns (processImageWithRetry second_attempt_succeeds 2).1 in
  let q0 := exec (createJob 0 "job-a" ["a.png"]) (new 3) in
  let q' := exec (processJob (λ k, Z.of_nat k) "job-a" None answers) q0 in
  ∃ job img,
    jobs q' !! "job-a" = Some job
    ∧ Job.images job !! 0%nat = Some img
    ∧ (Image.status img = "completed" ∨ Image.status img = "failed")
    ∧ (Image.status img = "completed"
       ↔ ∃ k, Z.of_nat k ≤ 2 ∧ succeeded (second_attempt_succeeds k) = true).
Proof.
  apply (processJob_with_retries (new 3) 0 "job-a" ["a.png"]
           (λ k, Z.of_nat k) (λ _, second_attempt_succeeds) 2 0 "a.png").
  reflexivity.
Defined.

(** * The routes *)

Lemma processedImages_processed answers paths :
  ∀ from,
    Image.outputPath
      <$> List.filter
            (λ img, String.eqb (Image.status img) "completed"
                    && truthy (Image.outputPath img))
            (imap (λ k, processed_image None answers (from + k)) paths)
    = List.filter truthy
        ((λ i, output_of (answers i)) <$> seq from (length paths)).
Proof.
  induction paths as [|p paths IH]; intros from; [done|].
  cbn [imap length seq fmap list_fmap List.filter].
  rewrite Nat.add_0_r, (processed_image_zipped None), <- IH.
  assert (Hshift : imap ((λ k, processed_image None answers (from + k)) ∘ S)
                        paths
                   = imap (λ k, processed_image None answers (S from + k))
                          paths).
  { apply imap_ext. intros k x _. unfold compose.
    by rewrite Nat.add_succ_r. }
  rewrite Hshift.
  destruct (truthy (output_of (answers from))); [|done].
  cbn [fmap list_fmap]. by rewrite processed_image_outputPath.
Qed.

Lemma no_processed_images job :
  (∀ img, img ∈ Job.images job →
     String.eqb (Image.status img) "completed"
     && truthy (Image.outputPath img) = false) →
  processedImages job = [].
Proof.
  intros Hnone. unfold processedImages.
  induction (Job.images job) as [|img rest IH]; [done|].
  simpl. rewrite Hnone by by left.
  apply IH. intros img' Hin. apply Hnone. by right.
Qed.

(** X18. A job can be completed and yet have nothing to download. After
    [createJob] with at least one path and [processJob], when the
    processor could not be created or no answer was a success with an
    output path, the job is completed and [GET /api/download/:jobId]
    answers 500 with 'No processed images to zip'. *)
Theorem download_without_output (q : QueueManager) (now0 : Z)
    (jobId : string) (paths : list string) (clock : nat → Z)
    (creation : option string) (answers : nat → Attempt) :
  paths ≠ [] →
  is_Some creation
  ∨ (∀ i, (i < length paths)%nat → output_of (answers i) = None) →
  let q0 := exec (createJob now0 jobId paths) q in
  let q' := exec (processJob clock jobId creation answers) q0 in
  Job.status <$> jobs q' !! jobId = Some "completed"
  ∧ download_route jobId q'
    = (json_error 500 "No processed images to zip", q').
Proof.
  intros Hpaths Hnone q0 q'.
  destruct (processJob_fresh q now0 jobId paths clock creation answers)
    as (job & Hjob & Himages & _ & _ & Hcompleted).
  destruct (Hcompleted Hpaths) as (Hstatus & _).
  fold q0 q' in Hjob. rewrite Hjob. simpl. split; [by rewrite Hstatus|].
  unfold download_route. run_method. rewrite Hjob, Hstatus. simpl.
  unfold createJobZip. rewrite no_processed_images; [done|].
  intros img Hin. rewrite Himages in Hin.
  apply list_elem_of_lookup in Hin as [i Hi].
  rewrite list_lookup_imap in Hi.
  destruct (paths !! i) as [p|] eqn:Hp; [|done]. injection Hi as <-.
  rewrite processed_image_zipped.
  destruct Hnone as [[message ->] | Hnone]; [done|].
  destruct creation; [done|].
  rewrite Hnone; [done|]. by eapply lookup_lt_Some.
Qed.

Lemma download_without_output_witness :
  let q0 := exec (createJob 0 "job-a" ["a.png"; "b.png"]) (new 3) in
  let q' := exec (processJob (λ k, Z.of_nat k) "job-a"
                    (Some "Gemini API key is required")
                    second_attempt_succeeds) q0 in
  Job.status <$> jobs q' !! "job-a" = Some "completed"
  ∧ download_route "job-a" q'
    = (json_error 500 "No processed images to zip", q').
Proof.
  apply (download_without_output (new 3) 0 "job-a" ["a.png"; "b.png"]).
  - discriminate.
  - left. by eexists.
Defined.

(** X19. After [createJob] and [processJob] with a processor, when some
    answer was a success with an output path,
    [GET /api/download/:jobId] sends an archive named after the job that
    holds, in the order of the images, the output paths of exactly the
    answers that were a success with an output path. The tracker is left as
    it was. *)
Theorem download_sends_outputs (q : QueueManager) (now0 : Z)
    (jobId : string) (paths : list string) (clock : nat → Z)
    (answers : nat → Attempt) (i : nat) :
  (i < length paths)%nat →
  truthy (output_of (answers i)) = true →
  let q0 := exec (createJob now0 jobId paths) q in
  let q' := exec (processJob clock jobId None answers) q0 in
  download_route jobId q'
  = (sent_zip
       (List.filter truthy
          ((λ i, output_of (answers i)) <$> seq 0 (length paths)))
       (jobId ++ ".zip") ("enhanced-images-" ++ jobId ++ ".zip"),
     q').
Proof.
  intros Hi Hout q0 q'.
  assert (Hpaths : paths ≠ []) by (destruct paths; [simpl in Hi; lia | done]).
  destruct (processJob_fresh q now0 jobId paths clock None answers)
    as (job & Hjob & Himages & _ & _ & Hcompleted).
  destruct (Hcompleted Hpaths) as (Hstatus & _).
  fold q0 q' in Hjob.
  unfold download_route. run_method. rewrite Hjob, Hstatus. simpl.
  unfold createJobZip, processedImages. rewrite Himages.
  change (imap (processed_image None answers) paths)
    with (imap (λ k, processed_image None answers (0 + k)) paths).
  rewrite (processedImages_processed answers paths 0).
  destruct (List.filter truthy _) as [|file files] eqn:Hfiles; [|done].
  exfalso.
  assert (Hin : In (output_of (answers i))
                   (List.filter truthy
                      ((λ i, output_of (answers i))
                         <$> seq 0 (length paths)))).
  { apply filter_In. split; [|done].
    apply list_elem_of_In, list_elem_of_fmap. exists i. split; [done|].
    apply list_elem_of_In, in_seq. lia. }
  by rewrite Hfiles in Hin.
Qed.

Lemma download_sends_outputs_witness :
  let q0 := exec (createJob 0 "job-a" ["a.png"; "b.png"]) (new 3) in
  let q' := exec (processJob (λ k, Z.of_nat k) "job-a" None
                             second_attempt_succeeds) q0 in
  download_route "job-a" q'
  = (sent_zip [Some "outputs/enhanced_a.png"] "job-a.zip"
              "enhanced-images-job-a.zip", q').
Proof.
  apply (download_sends_outputs (new 3) 0 "job-a" ["a.png"; "b.png"]
           (λ k, Z.of_nat k) second_attempt_succeeds 1).
  - simpl. lia.
  - reflexivity.
Defined.

(** ** Upload *)

Lemma accepted_upload files provider apiKey imageRouterApiKey :
  upload_rejection files provider apiKey imageRouterApiKey = None →
  (∃ file rest, files = Some (file :: rest))
  ∧ new_processor (chosen_provider provider) apiKey imageRouterApiKey = None
  ∧ (chosen_provider provider ≠ "imagerouter" →
     ∃ key, apiKey = Some key ∧ String.prefix "AIza" key = true).
Proof.
  unfold upload_rejection, new_processor. fold (chosen_provider provider).
  destruct files as [[|file rest]|]; [done| |done].
  intros Haccepted. split; [by eauto|].
  destruct (String.eqb_spec (chosen_provider provider) "imagerouter")
    as [Hir | Hgemini].
  - destruct (truthy imageRouterApiKey); [done | discriminate].
  - destruct (truthy apiKey) eqn:Hkey; [|discriminate].
    split; [done|]. intros _.
    destruct apiKey as [key|]; [|done]. exists key. split; [done|].
    simpl in Haccepted. by destruct (String.prefix "AIza" key).
Qed.

(** X20. A request that [POST /api/upload] accepts carries at least one
    file and the key that the processor of the chosen provider needs, so
    that neither constructor throws for a missing key; for every provider
    but imagerouter the Gemini key starts with 'AIza'. *)
Theorem accepted_upload_has_files_and_key (files : option (list string))
    (provider apiKey imageRouterApiKey : option string) :
  upload_rejection files provider apiKey imageRouterApiKey = None →
  (∃ file rest, files = Some (file :: rest))
  ∧ new_processor (chosen_provider provider) apiKey imageRouterApiKey = None
  ∧ (chosen_provider provider ≠ "imagerouter" →
     ∃ key, apiKey = Some key ∧ String.prefix "AIza" key = true).
Proof. apply accepted_upload. Qed.

Lemma accepted_upload_has_files_and_key_witness :
  (∃ file rest, Some ["uploads/a.png"] = Some (file :: rest))
  ∧ new_processor (chosen_provider None) (Some "AIzaSyExample") None = None
  ∧ (chosen_provider None ≠ "imagerouter" →
     ∃ key, Some "AIzaSyExample" = Some key
            ∧ String.prefix "AIza" key = true).
Proof.
  apply (accepted_upload_has_files_and_key (Some ["uploads/a.png"]) None
           (Some "AIzaSyExample") None).
  reflexivity.
Defined.

(** ** Cleanup *)



(** ** At most one completion, removal included *)

Lemma jobComplete_at_most_once_witness :
  (count_jobComplete "job-a"
     (emitted (run [UpdateImageStatus 1 "job-a" 0 "completed" Data.empty;
                    UpdateImageStatus 2 "job-a" 1 "failed" Data.empty;
                    RemoveJob "job-a"] two_images))
   ≤ S (count_jobComplete "job-a" (emitted two_images)))%nat.
Proof.
  apply jobComplete_at_most_once.
  - intros c Hc.
    repeat (apply elem_of_cons in Hc as [-> | Hc]; [reflexivity|]).
    by apply elem_of_nil in Hc.
  - reflexivity.
Defined.
